(** * pg_vault: the shared-memory key vault of [src/pg_vault.c]

    The vault is one pre-sized shared segment: a small header
    ([lock], [maxitems], [nitems]) followed by an array of fixed-length
    [VaultItemData] records.  Every SQL-callable function of the module
    works on that segment through [memcpy], [memset], [strcmp] and the
    varlena macros, so the embedding keeps the item array as a flat byte
    store and writes each C library call out on it.

    Each function is one step on the segment: the LWLock calls around its
    critical section, the memory contexts and the tuple descriptor of
    [list_keys] are left out.  An [elog(ERROR, ...)] ends the call at
    once; the functions return the segment together with how the call
    ended. *)

From Stdlib Require Import Strings.String.
From Stdlib Require Import ZArith List Bool Lia.
From Stdlib Require Import Init.Byte Strings.Byte.
Import ListNotations.
Local Open Scope Z_scope.

(** ** Bytes and C strings *)

Definition byte_to_Z (b : byte) : Z := Z.of_N (Byte.to_N b).

Definition byte_of_Z (z : Z) : byte :=
  match Byte.of_N (Z.to_N (z mod 256)) with
  | Some b => b
  | None => x00
  end.

Definition is_nul (b : byte) : bool := Byte.eqb b x00.

(** A [char *] argument is the list of bytes of its buffer; the buffer
    made by [text_to_cstring] ends with the terminator, so the end of the
    list stands for it and an embedded NUL ends the string early. *)
Fixpoint strlen (s : list byte) : nat :=
  match s with
  | [] => O
  | c :: s' => if is_nul c then O else S (strlen s')
  end.

(** The characters of a C string: the [strlen s] bytes before its NUL. *)
Definition cstr (s : list byte) : list byte := firstn (strlen s) s.

(** ** The item array as bytes

    Addresses are byte offsets from [vault_info->items]. *)

Definition mem := Z -> byte.

Definition MAX_ID_LENGTH : Z := 64.
Definition MAX_COMMENT_LENGTH : Z := 255.
Definition MAX_KEY_LENGTH : Z := 1024.

(** [sizeof(VaultItemData)]: three [char] arrays, no padding. *)
Definition sizeof_VaultItemData : Z :=
  MAX_ID_LENGTH + MAX_COMMENT_LENGTH + MAX_KEY_LENGTH.

Definition item_addr (i : Z) : Z := i * sizeof_VaultItemData.
Definition item_id (i : Z) : Z := item_addr i.
Definition item_comment (i : Z) : Z := item_addr i + MAX_ID_LENGTH.
Definition item_key (i : Z) : Z :=
  item_addr i + MAX_ID_LENGTH + MAX_COMMENT_LENGTH.

Definition in_range (lo len a : Z) : bool := (lo <=? a) && (a <? lo + len).

(** [memset(dst, 0, n)] *)
Definition memset0 (m : mem) (dst n : Z) : mem :=
  fun a => if in_range dst n a then x00 else m a.

(** [memcpy(dst, src, n)] from a private buffer [src] into the array. *)
Definition memcpy_buf (m : mem) (dst : Z) (src : list byte) (n : Z) : mem :=
  fun a => if in_range dst n a then nth (Z.to_nat (a - dst)) src x00 else m a.

(** [memcpy(dst, src, n)] between two places of the array. *)
Definition memcpy_mem (m : mem) (dst src n : Z) : mem :=
  fun a => if in_range dst n a then m (src + (a - dst)) else m a.

(** The [n] bytes at [p]. *)
Fixpoint mem_read (m : mem) (p : Z) (n : nat) : list byte :=
  match n with
  | O => []
  | S k => m p :: mem_read m (p + 1) k
  end.

(** [strcmp(p, s) == 0] for a string [p] in the array. *)
Fixpoint mem_strcmp_eq (m : mem) (p : Z) (s : list byte) : bool :=
  match s with
  | [] => is_nul (m p)
  | c :: s' =>
      if is_nul c then is_nul (m p)
      else Byte.eqb (m p) c && mem_strcmp_eq m (p + 1) s'
  end.

(** The C string at [p], as [CStringGetTextDatum] reads it: bytes up to
    the first NUL.  The read has no bound in C; [fuel] bounds it here. *)
Fixpoint mem_cstring (fuel : nat) (m : mem) (p : Z) : option (list byte) :=
  match fuel with
  | O => None
  | S f =>
      if is_nul (m p) then Some []
      else option_map (cons (m p)) (mem_cstring f m (p + 1))
  end.

(** ** Varlena values

    PostgreSQL's [postgres.h] is not part of the repository.  The macros
    below follow its little-endian definitions: a detoasted value has a
    four-byte header holding [length << 2], a packed value a one-byte
    header holding [(length << 1) | 1], and the byte [0x01] announces an
    external pointer whose length is in the next byte. *)

Definition VARHDRSZ : Z := 4.

Definition le32 (m : mem) (p : Z) : Z :=
  byte_to_Z (m p)
  + Z.shiftl (byte_to_Z (m (p + 1))) 8
  + Z.shiftl (byte_to_Z (m (p + 2))) 16
  + Z.shiftl (byte_to_Z (m (p + 3))) 24.

Definition VARSIZE_ANY (m : mem) (p : Z) : Z :=
  let b0 := byte_to_Z (m p) in
  if b0 =? 1 then byte_to_Z (m (p + 1))
  else if Z.land b0 1 =? 1 then Z.land (Z.shiftr b0 1) 127
  else Z.land (Z.shiftr (le32 m p) 2) 1073741823.

(** What [PG_GETARG_BYTEA_P] hands to the function for a value of the
    given data bytes: the four-byte header, then the data. *)
Definition bytea (data : list byte) : list byte :=
  let h := Z.shiftl (VARHDRSZ + Z.of_nat (length data)) 2 mod 2 ^ 32 in
  byte_of_Z h :: byte_of_Z (Z.shiftr h 8) :: byte_of_Z (Z.shiftr h 16)
    :: byte_of_Z (Z.shiftr h 24) :: data.

(** ** The segment *)

Record VaultInfoData := {
  lock : Z;          (* LWLock guarding the vault *)
  maxitems : Z;      (* max number of items we can keep *)
  nitems : Z;        (* number of items in the vault *)
  items : mem        (* the items, and whatever follows them *)
}.

Inductive error :=
| NullIdentifier       (* "key ID must not be NULL" *)
| NullKey              (* "key data must not be NULL" *)
| IdentifierTooLong    (* "key ID too long" *)
| CommentTooLong       (* "comment too long" *)
| PayloadTooLong       (* "key too long" *)
| DuplicateIdentifier  (* "the supplied key ID is not unique" *)
| CapacityExceeded.    (* "cannot add a key - the vault is full" *)

(** How a call ends: [PG_RETURN_*] or [elog(ERROR, ...)]. *)
Inductive outcome (A : Type) :=
| Return (a : A)
| Raise (e : error).
Arguments Return {A} a.
Arguments Raise {A} e.

(** The loop shared by [add_key], [delete_key] and [lookup_key]:
    [for (i = 0; i < nitems; i++) if (strcmp(items[i].id, id) == 0) break;]
    gives the index it stops at. *)
Fixpoint scan_items (m : mem) (id : list byte) (i : Z) (n : nat) : option Z :=
  match n with
  | O => None
  | S n' =>
      if mem_strcmp_eq m (item_id i) id then Some i
      else scan_items m id (i + 1) n'
  end.

Definition find_item (v : VaultInfoData) (id : list byte) : option Z :=
  scan_items (items v) id 0 (Z.to_nat (nitems v)).

(** ** The SQL-callable functions

    The segment size is the GUC [pg_vault.max_size]; the offset of
    [items] in [VaultInfoData] depends on the width of [LWLockId], which
    the PostgreSQL headers fix. *)

Section Vault.

Variable pgvault_mem_max_size : Z.
Variable offsetof_items : Z.        (* offsetof(VaultInfoData, items) *)

(** Bytes of the segment from [items] to its end. *)
Definition items_bytes : Z := pgvault_mem_max_size - offsetof_items.

Definition size_t_of (z : Z) : Z := z mod 2 ^ 64.
Definition int_of (z : Z) : Z := (z + 2 ^ 31) mod 2 ^ 32 - 2 ^ 31.

(** [pgvault_shmem_startup]: [seg] is the segment [ShmemInitStruct]
    returns, [found] its flag, [new_lock] the result of [LWLockAssign]. *)
Definition pgvault_shmem_startup
    (seg : VaultInfoData) (found : bool) (new_lock : Z) : VaultInfoData :=
  if found then seg
  else
    {| lock := new_lock;
       maxitems :=
         int_of (size_t_of (pgvault_mem_max_size - offsetof_items)
                 / sizeof_VaultItemData);
       nitems := 0;
       items := memset0 (items seg) 0 items_bytes |}.

(** [add_key(id, key, comment)]; [key] is the data of the bytea argument.
    [nitems++] cannot overflow: it runs only when [nitems < maxitems]. *)
Definition add_key (v : VaultInfoData) (id key comment : option (list byte))
    : VaultInfoData * outcome unit :=
  match id, key with
  | None, _ => (v, Raise NullIdentifier)
  | Some _, None => (v, Raise NullKey)
  | Some id, Some key =>
      if MAX_ID_LENGTH <=? Z.of_nat (strlen id)
      then (v, Raise IdentifierTooLong)
      else if match comment with
              | Some c => MAX_COMMENT_LENGTH <=? Z.of_nat (strlen c)
              | None => false
              end
      then (v, Raise CommentTooLong)
      else if MAX_KEY_LENGTH <=? Z.of_nat (length key)   (* VARSIZE_ANY_EXHDR *)
      then (v, Raise PayloadTooLong)
      else
        let key_id_unique :=
          match find_item v id with Some _ => false | None => true end in
        let vault_is_full := maxitems v <=? nitems v in
        let v' :=
          if negb vault_is_full && key_id_unique then
            let n := nitems v in
            let m1 := memcpy_buf (items v) (item_id n) id
                        (Z.of_nat (strlen id)) in
            let m2 := memcpy_buf m1 (item_key n) (bytea key)
                        (VARHDRSZ + Z.of_nat (length key)) (* VARSIZE_ANY *) in
            let m3 := match comment with
                      | Some c => memcpy_buf m2 (item_comment n) c
                                    (Z.of_nat (strlen c))
                      | None => m2
                      end in
            {| lock := lock v; maxitems := maxitems v;
               nitems := n + 1; items := m3 |}
          else v in
        if negb key_id_unique then (v', Raise DuplicateIdentifier)
        else if vault_is_full then (v', Raise CapacityExceeded)
        else (v', Return tt)
  end.

(** [delete_key(id)]. [nitems--] runs only inside the loop, where
    [nitems > i >= 0]. *)
Definition delete_key (v : VaultInfoData) (id : option (list byte))
    : VaultInfoData * outcome unit :=
  match id with
  | None => (v, Raise NullIdentifier)
  | Some id =>
      match find_item v id with
      | Some i =>
          let n := nitems v - 1 in
          ({| lock := lock v; maxitems := maxitems v; nitems := n;
              items := memcpy_mem (items v) (item_addr i) (item_addr n)
                         sizeof_VaultItemData |},
           Return tt)
      | None => (v, Return tt)
      end
  end.

(** [lookup_key(id)]: the palloc'd copy of the stored varlena, or NULL. *)
Definition lookup_key (v : VaultInfoData) (id : option (list byte))
    : outcome (option (list byte)) :=
  match id with
  | None => Raise NullIdentifier
  | Some id =>
      match find_item v id with
      | Some i =>
          Return (Some (mem_read (items v) (item_key i)
                          (Z.to_nat (VARSIZE_ANY (items v) (item_key i)))))
      | None => Return None
      end
  end.

(** [delete_keys()]: one [memset] from the [nitems] field to the end of
    the segment. *)
Definition delete_keys (v : VaultInfoData) : VaultInfoData * outcome unit :=
  ({| lock := lock v; maxitems := maxitems v; nitems := 0;
      items := memset0 (items v) 0 items_bytes |},
   Return tt).

(** The loop of [vault_copy]. *)
Fixpoint strip_loop (m : mem) (i : Z) (n : nat) : mem :=
  match n with
  | O => m
  | S n' => strip_loop (memset0 m (item_key i) MAX_KEY_LENGTH) (i + 1) n'
  end.

(** [vault_copy(strip_keys)]: a [palloc0]'d buffer of the segment's size,
    the segment copied into it, then the loop; the flag is not read. *)
Definition vault_copy (strip_keys : bool) (v : VaultInfoData) : VaultInfoData :=
  let copy : mem :=
    fun a => if in_range 0 items_bytes a then items v a else x00 in
  {| lock := lock v; maxitems := maxitems v; nitems := nitems v;
     items := strip_loop copy 0 (Z.to_nat (nitems v)) |}.

(** A row of [list_keys]: [values[0]], [values[1]] with [nulls[1]], and
    [values[2]]. *)
Record tuple := {
  tup_id : list byte;
  tup_key : option (list byte);
  tup_comment : list byte
}.

(** One call of [list_keys] with [call_cntr < max_calls]. *)
Definition list_keys_tuple (fuel : nat) (vault : VaultInfoData) (call_cntr : Z)
    : option tuple :=
  match mem_cstring fuel (items vault) (item_id call_cntr),
        mem_cstring fuel (items vault) (item_comment call_cntr) with
  | Some i, Some c =>
      Some {| tup_id := i; tup_key := None; tup_comment := c |}
  | _, _ => None
  end.

Fixpoint list_keys_calls (fuel : nat) (vault : VaultInfoData)
    (call_cntr : Z) (remaining : nat) : list (option tuple) :=
  match remaining with
  | O => []
  | S r =>
      list_keys_tuple fuel vault call_cntr
        :: list_keys_calls fuel vault (call_cntr + 1) r
  end.

(** [list_keys()]: the first call takes the copy and sets [max_calls]
    (an unsigned 32-bit field) to [nitems]; every call emits one row. *)
Definition list_keys (fuel : nat) (v : VaultInfoData) : list (option tuple) :=
  let max_calls := nitems v mod 2 ^ 32 in
  let user_fctx := vault_copy true v in
  list_keys_calls fuel user_fctx 0 (Z.to_nat max_calls).

End Vault.

(** ** Vocabulary of the statements

    Properties of a segment are stated on its bytes, through the same
    reads the C code makes. *)

(** Record [i] of the array holds the C string [id] as its identifier:
    the characters of [id], then the terminator. *)
Definition stored_id (m : mem) (i : Z) (id : list byte) : Prop :=
  mem_read m (item_id i) (S (strlen id)) = cstr id ++ [x00].

(** [id] is the identifier of one of the populated records. *)
Definition present (v : VaultInfoData) (id : list byte) : Prop :=
  exists i, 0 <= i < nitems v /\ stored_id (items v) i id.

(** The identifiers of the populated records are pairwise distinct. *)
Definition ids_unique (v : VaultInfoData) : Prop :=
  forall i j id,
    0 <= i < nitems v -> 0 <= j < nitems v ->
    stored_id (items v) i id -> stored_id (items v) j id -> i = j.

(** Every populated record has a NUL in its [id] field. *)
Definition ids_terminated (v : VaultInfoData) : Prop :=
  forall i, 0 <= i < nitems v ->
    exists k, 0 <= k < MAX_ID_LENGTH /\ items v (item_id i + k) = x00.

(** [a] is a byte of the [key] field of record [i]. *)
Definition in_key_field (i a : Z) : Prop :=
  item_key i <= a < item_key i + MAX_KEY_LENGTH.

(** Two segments with the same header that differ at most in bytes of
    [key] fields. *)
Definition same_but_keys (v v' : VaultInfoData) : Prop :=
  lock v' = lock v /\ maxitems v' = maxitems v /\ nitems v' = nitems v
  /\ forall a, (forall i, ~ in_key_field i a) -> items v' a = items v a.

(** The row [t] is made of bytes of record [k]'s [id] and [comment]
    fields, and its [key] column is NULL. *)
Definition row_of_fields (v : VaultInfoData) (k : Z) (t : tuple) : Prop :=
  (forall b, In b (tup_id t) ->
     exists a, item_id k <= a < item_key k /\ items v a = b)
  /\ (forall b, In b (tup_comment t) ->
        exists a, item_comment k <= a < item_key k /\ items v a = b)
  /\ tup_key t = None.

(** *** Arguments of add_key *)

(** The three size checks of [add_key] let the arguments through. *)
Definition passes_size_checks
    (id key : list byte) (comment : option (list byte)) : Prop :=
  Z.of_nat (strlen id) < MAX_ID_LENGTH
  /\ Z.of_nat (length key) < MAX_KEY_LENGTH
  /\ match comment with
     | Some c => Z.of_nat (strlen c) < MAX_COMMENT_LENGTH
     | None => True
     end.

(** Arguments of one [add_key] call. *)
Record add_args := {
  arg_id : list byte;
  arg_key : list byte;
  arg_comment : option (list byte)
}.

(** The input bounds of add: an identifier of at most [MAX_ID_LENGTH - 1]
    characters, a key whose varlena, header included, fits the [key]
    field, a comment of at most [MAX_COMMENT_LENGTH - 1] characters. *)
Definition valid_args (a : add_args) : Prop :=
  Z.of_nat (strlen (arg_id a)) <= MAX_ID_LENGTH - 1
  /\ VARHDRSZ + Z.of_nat (length (arg_key a)) <= MAX_KEY_LENGTH
  /\ match arg_comment a with
     | Some c => Z.of_nat (strlen c) <= MAX_COMMENT_LENGTH - 1
     | None => True
     end.

(** The identifier as the C code sees it. *)
Definition arg_cstr (a : add_args) : list byte := cstr (arg_id a).

(** One [add_key] call after the other, with the outcome of each. *)
Fixpoint add_keys (v : VaultInfoData) (l : list add_args)
    : VaultInfoData * list (outcome unit) :=
  match l with
  | [] => (v, [])
  | a :: l' =>
      let r := add_key v (Some (arg_id a)) (Some (arg_key a)) (arg_comment a) in
      let rs := add_keys (fst r) l' in
      (fst rs, snd r :: snd rs)
  end.

(** The bytes [add_key] leaves in the array when it stores a record at
    index [n]. *)
Definition added_items (m : mem) (n : Z) (id key : list byte)
    (comment : option (list byte)) : mem :=
  let m1 := memcpy_buf m (item_id n) id (Z.of_nat (strlen id)) in
  let m2 := memcpy_buf m1 (item_key n) (bytea key)
              (VARHDRSZ + Z.of_nat (length key)) in
  match comment with
  | Some c => memcpy_buf m2 (item_comment n) c (Z.of_nat (strlen c))
  | None => m2
  end.

(** The populated records hold identifiers of [ids], and the array is
    zero from the first free record to [bytes]. *)
Definition filled (v : VaultInfoData) (ids : list (list byte)) (bytes : Z)
    : Prop :=
  0 <= nitems v
  /\ (forall i, 0 <= i < nitems v ->
        exists id, In id ids
                   /\ Z.of_nat (strlen id) < MAX_ID_LENGTH
                   /\ stored_id (items v) i id)
  /\ (forall a, item_addr (nitems v) <= a < bytes -> items v a = x00).

(** *** Concrete segments *)

(** The boot value of [pg_vault.max_size]. *)
Definition default_max_size : Z := 1024 * 1024.

(** [offsetof(VaultInfoData, items)] with an [int]-sized [LWLockId]. *)
Definition default_items_offset : Z := 12.

(** Shared memory before start-up: nothing in it is set. *)
Definition raw_segment : VaultInfoData :=
  {| lock := 0; maxitems := 0; nitems := 0; items := fun _ => xff |}.

(** The segment start-up leaves, with the default size. *)
Definition fresh_vault : VaultInfoData :=
  pgvault_shmem_startup default_max_size default_items_offset
    raw_segment false 1.

(** A text argument given by its characters. *)
Definition text (s : string) : list byte := list_byte_of_string s.

(** A default vault with one record. *)
Definition one_record : VaultInfoData :=
  fst (add_key fresh_vault (Some (text "a")) (Some (text "secret")) None).

(** The vault of the scenario: a segment sized for three records, and the
    three adds. *)
Definition three_max_size : Z := default_items_offset + 3 * sizeof_VaultItemData.

Definition three_fresh : VaultInfoData :=
  pgvault_shmem_startup three_max_size default_items_offset raw_segment false 1.

Definition three_adds : list add_args :=
  [ {| arg_id := text "a"; arg_key := ["001"; "002"; "003"]%byte;
       arg_comment := Some (text "x") |};
    {| arg_id := text "b"; arg_key := ["004"; "005"]%byte;
       arg_comment := None |};
    {| arg_id := text "c"; arg_key := ["009"]%byte;
       arg_comment := Some (text "z") |} ].

Definition fourth_add : add_args :=
  {| arg_id := text "d"; arg_key := ["000"]%byte; arg_comment := None |}.

Definition three_full : VaultInfoData := fst (add_keys three_fresh three_adds).

(** The full three-record vault after [delete_key('b')]. *)
Definition three_after_delete : VaultInfoData :=
  fst (delete_key three_full (Some (text "b"))).

(** A default vault whose record 0 was used and deleted. *)
Definition dirty_vault : VaultInfoData :=
  fst (delete_key
         (fst (add_key fresh_vault (Some (text "abcdef")) (Some (text "1"))
                 None))
         (Some (text "abcdef"))).

(** The segment for three records, emptied by a delete: 'abcdef' was
    added and deleted. *)
Definition three_dirty : VaultInfoData :=
  fst (delete_key
         (fst (add_key three_fresh (Some (text "abcdef")) (Some (text "1"))
                 None))
         (Some (text "abcdef"))).

(** Three adds for that segment, and a fourth. *)
Definition dirty_adds : list add_args :=
  [ {| arg_id := text "abc"; arg_key := ["001"]%byte; arg_comment := None |};
    {| arg_id := text "abcdef"; arg_key := ["002"]%byte;
       arg_comment := None |};
    {| arg_id := text "z"; arg_key := ["003"]%byte; arg_comment := None |} ].

Definition dirty_fourth : add_args :=
  {| arg_id := text "d"; arg_key := ["004"]%byte; arg_comment := None |}.

(** *** States the functions reach *)

(** The segments the functions of the module leave, from the first
    start-up on, whatever the arguments of the calls.  [lookup_key],
    [list_keys] and a start-up that finds the segment change nothing. *)
Inductive reachable (size off : Z) : VaultInfoData -> Prop :=
| reach_startup (seg : VaultInfoData) (new_lock : Z) :
    reachable size off (pgvault_shmem_startup size off seg false new_lock)
| reach_add_key (v : VaultInfoData) (id key comment : option (list byte)) :
    reachable size off v ->
    reachable size off (fst (add_key v id key comment))
| reach_delete_key (v : VaultInfoData) (id : option (list byte)) :
    reachable size off v ->
    reachable size off (fst (delete_key v id))
| reach_delete_keys (v : VaultInfoData) :
    reachable size off v ->
    reachable size off (fst (delete_keys size off v)).

(** The four header bytes [bytea] puts before [len] data bytes. *)
Definition bytea_header (len : nat) : list byte :=
  firstn 4 (bytea (repeat x00 len)).

(** What every reachable segment satisfies: [maxitems] is the number
    computed at start-up, [nitems] is a count within it, the last byte of
    the [id] and of the [comment] field of every record of the array is
    zero, and the [key] field of every populated record starts with a
    four-byte header for fewer than [MAX_KEY_LENGTH] data bytes. *)
Definition well_formed (size off : Z) (v : VaultInfoData) : Prop :=
  maxitems v = (size - off) / sizeof_VaultItemData
  /\ 0 <= nitems v <= maxitems v
  /\ (forall i, 0 <= i < maxitems v ->
        items v (item_id i + (MAX_ID_LENGTH - 1)) = x00
        /\ items v (item_comment i + (MAX_COMMENT_LENGTH - 1)) = x00)
  /\ (forall i, 0 <= i < nitems v ->
        exists len, Z.of_nat len < MAX_KEY_LENGTH
                    /\ mem_read (items v) (item_key i) 4 = bytea_header len).

(** An empty vault with nothing in its records: the first [bytes] bytes
    of the array, which hold the [maxitems] records, are zero. *)
Definition clean_empty (bytes : Z) (v : VaultInfoData) : Prop :=
  nitems v = 0
  /\ 0 <= maxitems v
  /\ maxitems v * sizeof_VaultItemData <= bytes
  /\ forall a, 0 <= a < bytes -> items v a = x00.

(** The comment as the C code sees it; none is the empty string of a
    clean record. *)
Definition arg_comment_cstr (a : add_args) : list byte :=
  match arg_comment a with
  | Some c => cstr c
  | None => []
  end.

(** The row [list_keys] is to show for a record added with [a]. *)
Definition row_of_args (a : add_args) : tuple :=
  {| tup_id := arg_cstr a; tup_key := None; tup_comment := arg_comment_cstr a |}.

(** Record [i] holds the characters [c] as its comment, then the
    terminator. *)
Definition stored_comment (m : mem) (i : Z) (c : list byte) : Prop :=
  mem_read m (item_comment i) (S (length c)) = c ++ [x00].

(** Record [i] holds the varlena of [data] at the start of its [key]
    field. *)
Definition stored_key (m : mem) (i : Z) (data : list byte) : Prop :=
  mem_read m (item_key i) (length (bytea data)) = bytea data.

(** The populated records are the records of the calls [l], in order,
    and the array is zero from the first free record to [bytes]. *)
Definition laid_out (v : VaultInfoData) (l : list add_args) (bytes : Z)
    : Prop :=
  nitems v = Z.of_nat (length l)
  /\ (forall k a, nth_error l k = Some a ->
        valid_args a
        /\ stored_id (items v) (Z.of_nat k) (arg_id a)
        /\ stored_comment (items v) (Z.of_nat k) (arg_comment_cstr a)
        /\ stored_key (items v) (Z.of_nat k) (arg_key a))
  /\ (forall x, item_addr (nitems v) <= x < bytes -> items v x = x00).

(** *** The GUC [pg_vault.max_size]

    The boot value, minimum and maximum that [_PG_init] passes to
    [DefineCustomIntVariable]; [INT_MAX] is that of a 32-bit [int]. *)

Definition max_size_boot : Z := 1024 * 1024.
Definition max_size_min : Z := 1024 * 1024.
Definition INT_MAX : Z := 2 ^ 31 - 1.

(** A value the variable [pgvault_mem_max_size] can have. *)
Definition guc_admits (size : Z) : Prop := max_size_min <= size <= INT_MAX.

(** *** Tactics *)

(** Unfolds the layout of [VaultItemData] to numbers, for [lia]. *)
Ltac layout :=
  unfold item_id, item_comment, item_key, item_addr, sizeof_VaultItemData,
    MAX_ID_LENGTH, MAX_COMMENT_LENGTH, MAX_KEY_LENGTH, VARHDRSZ in *.

(** Closes a comparison of computed numbers. *)
Ltac concrete_le := vm_compute; intuition discriminate.

(** ** Bytes, ranges and reads *)

Lemma is_nul_true (b : byte) : is_nul b = true <-> b = x00.
Proof.
  unfold is_nul; split; intro H.
  - now apply byte_dec_bl.
  - now apply byte_dec_lb.
Qed.

Lemma byte_eqb_true (a b : byte) : Byte.eqb a b = true <-> a = b.
Proof.
  split; intro H; [now apply byte_dec_bl | now apply byte_dec_lb].
Qed.

Lemma in_range_true (lo len a : Z) :
  in_range lo len a = true <-> lo <= a < lo + len.
Proof. unfold in_range. rewrite andb_true_iff, Z.leb_le, Z.ltb_lt. tauto. Qed.

Lemma in_range_false (lo len a : Z) :
  in_range lo len a = false <-> ~ (lo <= a < lo + len).
Proof.
  rewrite <- in_range_true. destruct (in_range lo len a); split; congruence.
Qed.

Lemma memset0_zero (m : mem) (dst n a : Z) :
  dst <= a < dst + n -> memset0 m dst n a = x00.
Proof.
  intro H. unfold memset0.
  now rewrite (proj2 (in_range_true dst n a) H).
Qed.

Lemma memset0_other (m : mem) (dst n a : Z) :
  ~ (dst <= a < dst + n) -> memset0 m dst n a = m a.
Proof.
  intro H. unfold memset0.
  now rewrite (proj2 (in_range_false dst n a) H).
Qed.

Lemma memcpy_buf_other (m : mem) (dst : Z) (src : list byte) (n a : Z) :
  ~ (dst <= a < dst + n) -> memcpy_buf m dst src n a = m a.
Proof.
  intro H. unfold memcpy_buf.
  now rewrite (proj2 (in_range_false dst n a) H).
Qed.

Lemma memcpy_buf_inside (m : mem) (dst : Z) (src : list byte) (n a : Z) :
  dst <= a < dst + n ->
  memcpy_buf m dst src n a = nth (Z.to_nat (a - dst)) src x00.
Proof.
  intro H. unfold memcpy_buf.
  now rewrite (proj2 (in_range_true dst n a) H).
Qed.

Lemma mem_read_ext (n : nat) :
  forall m m' p,
    (forall a, p <= a < p + Z.of_nat n -> m' a = m a) ->
    mem_read m' p n = mem_read m p n.
Proof.
  induction n as [|n IH]; intros m m' p H; simpl; [reflexivity|].
  rewrite (H p) by lia. f_equal. apply IH. intros a Ha. apply H. lia.
Qed.

Lemma mem_read_shift (n : nat) :
  forall m m' p q,
    (forall k, 0 <= k < Z.of_nat n -> m' (p + k) = m (q + k)) ->
    mem_read m' p n = mem_read m q n.
Proof.
  induction n as [|n IH]; intros m m' p q H; simpl; [reflexivity|].
  f_equal.
  - specialize (H 0). rewrite !Z.add_0_r in H. apply H. lia.
  - apply IH. intros k Hk. specialize (H (1 + k)).
    rewrite !Z.add_assoc in H. apply H. lia.
Qed.

Lemma mem_read_nth (n : nat) :
  forall m p l,
    length l = n ->
    (forall j, (j < n)%nat -> m (p + Z.of_nat j) = nth j l x00) ->
    mem_read m p n = l.
Proof.
  induction n as [|n IH]; intros m p l Hl H.
  - destruct l; [reflexivity | discriminate].
  - destruct l as [|x l]; [discriminate|]. simpl.
    f_equal.
    + specialize (H O). simpl in H. rewrite Z.add_0_r in H. apply H. lia.
    + apply IH; [simpl in Hl; lia|].
      intros j Hj. specialize (H (S j)).
      replace (p + 1 + Z.of_nat j) with (p + Z.of_nat (S j)) by lia.
      apply H. lia.
Qed.

Lemma mem_read_at (n : nat) :
  forall m p l t,
    mem_read m p n = l -> (t < n)%nat -> m (p + Z.of_nat t) = nth t l x00.
Proof.
  induction n as [|n IH]; intros m p l t H Ht; [lia|].
  simpl in H. destruct l as [|x l]; [discriminate|].
  injection H as Hx Hl. destruct t as [|t].
  - simpl. rewrite Z.add_0_r. exact Hx.
  - replace (p + Z.of_nat (S t)) with (p + 1 + Z.of_nat t) by lia.
    simpl. apply (IH _ _ _ _ Hl). lia.
Qed.

Lemma strlen_le_length (s : list byte) : (strlen s <= length s)%nat.
Proof.
  induction s as [|c s IH]; simpl; [lia|].
  destruct (is_nul c); lia.
Qed.

Lemma cstr_length (s : list byte) : length (cstr s) = strlen s.
Proof. unfold cstr. apply firstn_length_le, strlen_le_length. Qed.

Lemma cstr_nul_free (s : list byte) :
  forall t, (t < strlen s)%nat -> nth t (cstr s) x00 <> x00.
Proof.
  unfold cstr. induction s as [|c s IH]; intros t Ht; simpl in Ht; [lia|].
  simpl. destruct (is_nul c) eqn:E; [lia|]. simpl.
  destruct t as [|t].
  - intro Hc. apply is_nul_true in Hc. congruence.
  - apply IH. lia.
Qed.

Lemma item_addr_succ (i : Z) :
  item_addr (i + 1) = item_addr i + sizeof_VaultItemData.
Proof. layout. lia. Qed.

Lemma byte_to_of_Z (z : Z) : byte_to_Z (byte_of_Z z) = z mod 256.
Proof.
  unfold byte_to_Z, byte_of_Z.
  pose proof (Z.mod_pos_bound z 256 eq_refl) as Hb.
  destruct (Byte.of_N (Z.to_N (z mod 256))) as [b|] eqn:E.
  - rewrite (Byte.to_of_N _ E). apply Z2N.id. lia.
  - apply Byte.of_N_None_iff in E. lia.
Qed.

Lemma le32_bytes (h : Z) :
  0 <= h < 2 ^ 32 ->
  h mod 256 + (h / 256) mod 256 * 256 + (h / 65536) mod 256 * 65536
  + (h / 16777216) mod 256 * 16777216 = h.
Proof.
  intro Hh.
  pose proof (Z.div_mod h 256 ltac:(lia)) as D0.
  pose proof (Z.div_mod (h / 256) 256 ltac:(lia)) as D1.
  pose proof (Z.div_mod (h / 65536) 256 ltac:(lia)) as D2.
  rewrite Z.div_div in D1 by lia. rewrite Z.div_div in D2 by lia.
  change (256 * 256) with 65536 in D1.
  change (65536 * 256) with 16777216 in D2.
  assert (Hq : 0 <= h / 16777216 < 256).
  { split; [apply Z.div_pos; lia|].
    apply Z.div_lt_upper_bound; lia. }
  rewrite (Z.mod_small (h / 16777216)) by lia. lia.
Qed.

Lemma bytea_length (data : list byte) :
  Z.of_nat (length (bytea data)) = VARHDRSZ + Z.of_nat (length data).
Proof. unfold bytea. simpl length. layout. lia. Qed.

(** [VARSIZE_ANY] of a four-byte header written by [bytea]. *)
Lemma VARSIZE_ANY_bytea (m : mem) (p : Z) (data : list byte) :
  VARHDRSZ + Z.of_nat (length data) < 2 ^ 30 ->
  (forall j, (j < 4)%nat -> m (p + Z.of_nat j) = nth j (bytea data) x00) ->
  VARSIZE_ANY m p = VARHDRSZ + Z.of_nat (length data).
Proof.
  intros Hn Hm.
  set (n := VARHDRSZ + Z.of_nat (length data)) in *.
  assert (Hn0 : 4 <= n) by (unfold n; layout; lia).
  pose proof (Hm 0%nat ltac:(lia)) as H0.
  pose proof (Hm 1%nat ltac:(lia)) as H1.
  pose proof (Hm 2%nat ltac:(lia)) as H2.
  pose proof (Hm 3%nat ltac:(lia)) as H3.
  set (h := Z.shiftl n 2 mod 2 ^ 32) in *.
  change (nth 0 (bytea data) x00) with (byte_of_Z h) in H0.
  change (nth 1 (bytea data) x00) with (byte_of_Z (Z.shiftr h 8)) in H1.
  change (nth 2 (bytea data) x00) with (byte_of_Z (Z.shiftr h 16)) in H2.
  change (nth 3 (bytea data) x00) with (byte_of_Z (Z.shiftr h 24)) in H3.
  rewrite Z.add_0_r in H0.
  change (Z.of_nat 1) with 1 in H1. change (Z.of_nat 2) with 2 in H2.
  change (Z.of_nat 3) with 3 in H3. unfold h in *. clear h.
  assert (Hh : Z.shiftl n 2 mod 2 ^ 32 = 4 * n).
  { rewrite Z.shiftl_mul_pow2 by lia. rewrite Z.mod_small; lia. }
  rewrite Hh in H0, H1, H2, H3.
  unfold VARSIZE_ANY, le32.
  rewrite H0, H1, H2, H3, !byte_to_of_Z.
  rewrite !Z.shiftr_div_pow2, !Z.shiftl_mul_pow2 by lia.
  change (2 ^ 8) with 256. change (2 ^ 16) with 65536.
  change (2 ^ 24) with 16777216. change (2 ^ 2) with 4.
  assert (Hr : (4 * n) mod 256 = 4 * (n mod 64)).
  { change 256 with (4 * 64). apply Z.mul_mod_distr_l; lia. }
  assert (E0 : ((4 * n) mod 256 =? 1) = false)
    by (apply Z.eqb_neq; rewrite Hr; lia).
  rewrite E0.
  change 1 with (Z.ones 1) at 1. rewrite Z.land_ones by lia.
  assert (E1 : (((4 * n) mod 256) mod 2 ^ 1 =? 1) = false).
  { apply Z.eqb_neq. rewrite Hr. change (2 ^ 1) with 2.
    replace (4 * (n mod 64)) with (2 * (n mod 64) * 2) by lia.
    rewrite Z.mod_mul by lia. lia. }
  rewrite E1.
  change 1073741823 with (Z.ones 30). rewrite Z.land_ones by lia.
  change (2 ^ 30) with 1073741824 in *.
  rewrite le32_bytes by (change (2 ^ 32) with 4294967296; lia).
  replace (4 * n / 4) with n by (rewrite Z.mul_comm, Z.div_mul; lia).
  apply Z.mod_small. lia.
Qed.

(** ** The scan for an identifier *)

Lemma mem_strcmp_eq_read (m : mem) (s : list byte) :
  forall p, mem_strcmp_eq m p s = true
            <-> mem_read m p (S (strlen s)) = cstr s ++ [x00].
Proof.
  unfold cstr.
  induction s as [|c s IH]; intro p; simpl.
  - rewrite is_nul_true. split; intro H; [now rewrite H | now inversion H].
  - destruct (is_nul c) eqn:Hc; simpl.
    + rewrite is_nul_true. split; intro H; [now rewrite H | now inversion H].
    + rewrite andb_true_iff, byte_eqb_true, IH. split.
      * intros [-> H]. simpl in H |- *. now rewrite H.
      * intro H. simpl in H |- *. injection H as H1 H2.
        split; [exact H1 | exact H2].
Qed.

Lemma strcmp_stored_id (m : mem) (i : Z) (id : list byte) :
  mem_strcmp_eq m (item_id i) id = true <-> stored_id m i id.
Proof. apply mem_strcmp_eq_read. Qed.

(** One place of the array holds one C string. *)
Lemma mem_strcmp_eq_unique (m : mem) (s : list byte) :
  forall p t,
    mem_strcmp_eq m p s = true -> mem_strcmp_eq m p t = true ->
    cstr s = cstr t.
Proof.
  unfold cstr.
  induction s as [|c s IH]; intros p t Hs Ht; simpl in Hs.
  - destruct t as [|d t]; simpl in *; [reflexivity|].
    destruct (is_nul d) eqn:Ed; [reflexivity|].
    apply andb_true_iff in Ht. destruct Ht as [Hd _].
    apply byte_eqb_true in Hd. unfold is_nul in Hs, Ed.
    rewrite Hd in Hs. congruence.
  - simpl. destruct (is_nul c) eqn:Ec.
    + destruct t as [|d t]; simpl in *; [reflexivity|].
      destruct (is_nul d) eqn:Ed; [reflexivity|].
      apply andb_true_iff in Ht. destruct Ht as [Hd _].
      apply byte_eqb_true in Hd. unfold is_nul in Hs, Ed.
      rewrite Hd in Hs. congruence.
    + apply andb_true_iff in Hs. destruct Hs as [Hc Hs].
      apply byte_eqb_true in Hc.
      destruct t as [|d t]; simpl in Ht.
      * unfold is_nul in Ht, Ec. rewrite Hc in Ht. congruence.
      * simpl. destruct (is_nul d) eqn:Ed.
        -- unfold is_nul in Ht, Ec. rewrite Hc in Ht. congruence.
        -- apply andb_true_iff in Ht. destruct Ht as [Hd Ht].
           apply byte_eqb_true in Hd. simpl.
           rewrite (IH _ _ Hs Ht). congruence.
Qed.

Lemma stored_id_unique (m : mem) (i : Z) (s t : list byte) :
  stored_id m i s -> stored_id m i t -> cstr s = cstr t.
Proof.
  intros Hs Ht. apply strcmp_stored_id in Hs, Ht.
  exact (mem_strcmp_eq_unique _ _ _ _ Hs Ht).
Qed.

(** A stored identifier ends at the first NUL of the field. *)
Lemma stored_id_short (m : mem) (i k : Z) (id : list byte) :
  stored_id m i id -> 0 <= k -> m (item_id i + k) = x00 ->
  Z.of_nat (strlen id) <= k.
Proof.
  intros Hst Hk Hz.
  destruct (Z_le_gt_dec (Z.of_nat (strlen id)) k) as [|Hgt]; [assumption|].
  exfalso. unfold stored_id in Hst.
  pose proof (mem_read_at _ _ _ _ (Z.to_nat k) Hst ltac:(lia)) as H.
  rewrite Z2Nat.id in H by lia.
  rewrite app_nth1 in H by (rewrite cstr_length; lia).
  apply (cstr_nul_free id (Z.to_nat k)); [lia|]. congruence.
Qed.

Lemma scan_items_first (m : mem) (id : list byte) (i : Z) :
  forall n i0,
    i0 <= i < i0 + Z.of_nat n ->
    stored_id m i id ->
    (forall j, i0 <= j < i -> ~ stored_id m j id) ->
    scan_items m id i0 n = Some i.
Proof.
  induction n as [|n IH]; intros i0 Hr Hi Hbefore; simpl.
  - lia.
  - destruct (mem_strcmp_eq m (item_id i0) id) eqn:E.
    + apply strcmp_stored_id in E.
      destruct (Z.eq_dec i0 i) as [->|Hne]; [reflexivity|].
      exfalso. apply (Hbefore i0); [lia | exact E].
    + assert (i0 <> i).
      { intros ->. apply strcmp_stored_id in Hi. congruence. }
      apply IH; [lia | exact Hi |].
      intros j Hj. apply Hbefore. lia.
Qed.

Lemma scan_items_none (m : mem) (id : list byte) :
  forall n i0,
    (forall j, i0 <= j < i0 + Z.of_nat n -> ~ stored_id m j id) ->
    scan_items m id i0 n = None.
Proof.
  induction n as [|n IH]; intros i0 Hno; simpl; [reflexivity|].
  destruct (mem_strcmp_eq m (item_id i0) id) eqn:E.
  - apply strcmp_stored_id in E. exfalso. apply (Hno i0); [lia | exact E].
  - apply IH. intros j Hj. apply Hno. lia.
Qed.

Lemma scan_items_some (m : mem) (id : list byte) :
  forall n i0 i,
    scan_items m id i0 n = Some i ->
    i0 <= i < i0 + Z.of_nat n /\ stored_id m i id
    /\ forall j, i0 <= j < i -> ~ stored_id m j id.
Proof.
  induction n as [|n IH]; intros i0 i H; simpl in H; [discriminate|].
  destruct (mem_strcmp_eq m (item_id i0) id) eqn:E.
  - inversion H; subst. apply strcmp_stored_id in E.
    split; [lia|]. split; [exact E | intros j Hj; lia].
  - apply IH in H. destruct H as (Hr & Hs & Hb).
    split; [lia|]. split; [exact Hs|].
    intros j Hj Hst. destruct (Z.eq_dec j i0) as [->|Hne].
    + apply strcmp_stored_id in Hst. congruence.
    + apply (Hb j); [lia | exact Hst].
Qed.

Lemma scan_items_none_inv (m : mem) (id : list byte) :
  forall n i0,
    scan_items m id i0 n = None ->
    forall j, i0 <= j < i0 + Z.of_nat n -> ~ stored_id m j id.
Proof.
  induction n as [|n IH]; intros i0 H j Hj; simpl in H; [lia|].
  destruct (mem_strcmp_eq m (item_id i0) id) eqn:E; [discriminate|].
  destruct (Z.eq_dec j i0) as [->|Hne].
  - intro Hst. apply strcmp_stored_id in Hst. congruence.
  - apply (IH _ H). lia.
Qed.

Lemma find_item_first (v : VaultInfoData) (id : list byte) (i : Z) :
  0 <= i < nitems v ->
  stored_id (items v) i id ->
  (forall j, 0 <= j < i -> ~ stored_id (items v) j id) ->
  find_item v id = Some i.
Proof.
  intros Hr Hi Hb. unfold find_item.
  apply scan_items_first; [lia | exact Hi | exact Hb].
Qed.

Lemma find_item_absent (v : VaultInfoData) (id : list byte) :
  ~ present v id -> find_item v id = None.
Proof.
  intro Hno. unfold find_item. apply scan_items_none.
  intros j Hj Hst. apply Hno. exists j. split; [lia | exact Hst].
Qed.

Lemma find_item_present (v : VaultInfoData) (id : list byte) :
  present v id -> exists i, find_item v id = Some i.
Proof.
  intros (i & Hr & Hi).
  destruct (find_item v id) as [k|] eqn:E; [now exists k|].
  exfalso. unfold find_item in E.
  apply (scan_items_none_inv _ _ _ _ E i); [lia | exact Hi].
Qed.

Lemma find_item_some (v : VaultInfoData) (id : list byte) (i : Z) :
  find_item v id = Some i ->
  0 <= i < nitems v /\ stored_id (items v) i id.
Proof.
  unfold find_item. intro H. apply scan_items_some in H.
  destruct H as (Hr & Hs & _). split; [lia | exact Hs].
Qed.

(** ** Start-up *)

Lemma startup_maxitems (size off : Z) (seg : VaultInfoData) (new_lock : Z) :
  0 <= off <= size ->
  size < 2 ^ 31 ->
  maxitems (pgvault_shmem_startup size off seg false new_lock)
  = (size - off) / sizeof_VaultItemData.
Proof.
  intros Hoff Hint. simpl. unfold size_t_of, int_of.
  set (d := size - off).
  assert (Hd : 0 <= d < 2 ^ 31) by (unfold d; lia).
  rewrite (Z.mod_small d) by lia.
  assert (Hq : 0 <= d / sizeof_VaultItemData <= d).
  { split.
    - apply Z.div_pos; [lia | reflexivity].
    - apply Z.div_le_upper_bound; [reflexivity|]. layout. lia. }
  rewrite Z.mod_small by lia. lia.
Qed.

(** The array of [maxitems] records computed at start-up fits the segment. *)
Lemma startup_slots_fit (size off : Z) (seg : VaultInfoData) (new_lock : Z) :
  0 <= off <= size ->
  size < 2 ^ 31 ->
  0 <= maxitems (pgvault_shmem_startup size off seg false new_lock)
  /\ maxitems (pgvault_shmem_startup size off seg false new_lock)
       * sizeof_VaultItemData
     <= items_bytes size off.
Proof.
  intros Hoff Hint. rewrite startup_maxitems by assumption.
  unfold items_bytes.
  set (d := size - off).
  assert (Hd : 0 <= d) by (unfold d; lia).
  split.
  - apply Z.div_pos; [lia | reflexivity].
  - rewrite Z.mul_comm. apply Z.mul_div_le. reflexivity.
Qed.

(** C9. With the segment size an [int] not below the header, the first
    start-up ([found] false) sets [maxitems] to the floor of
    (segment size - header size) / record size, [nitems] to 0 and every
    byte of the segment from [items] on to zero; a start-up that finds the
    segment ([found] true) returns it as it is. *)
Theorem pgvault_shmem_startup_contract
    (pgvault_mem_max_size offsetof_items : Z)
    (seg : VaultInfoData) (new_lock : Z) :
  0 <= offsetof_items <= pgvault_mem_max_size ->
  pgvault_mem_max_size < 2 ^ 31 ->
  let v := pgvault_shmem_startup pgvault_mem_max_size offsetof_items
             seg false new_lock in
  maxitems v = (pgvault_mem_max_size - offsetof_items) / sizeof_VaultItemData
  /\ nitems v = 0
  /\ lock v = new_lock
  /\ (forall a, 0 <= a < pgvault_mem_max_size - offsetof_items ->
        items v a = x00)
  /\ pgvault_shmem_startup pgvault_mem_max_size offsetof_items
       seg true new_lock = seg.
Proof.
  intros Hoff Hint v. split; [apply startup_maxitems; assumption|].
  split; [reflexivity|]. split; [reflexivity|]. split; [|reflexivity].
  intros a Ha. unfold v. simpl. apply memset0_zero.
  unfold items_bytes. lia.
Qed.

(** ** add_key: a rejected call writes nothing *)

Lemma add_key_raise_unmodified (v : VaultInfoData)
    (id key comment : option (list byte)) (e : error) :
  snd (add_key v id key comment) = Raise e ->
  fst (add_key v id key comment) = v.
Proof.
  unfold add_key.
  destruct id as [id|]; [|reflexivity].
  destruct key as [key|]; [|reflexivity].
  destruct (MAX_ID_LENGTH <=? Z.of_nat (strlen id)); [reflexivity|].
  destruct (match comment with
            | Some c => MAX_COMMENT_LENGTH <=? Z.of_nat (strlen c)
            | None => false
            end); [reflexivity|].
  destruct (MAX_KEY_LENGTH <=? Z.of_nat (length key)); [reflexivity|].
  destruct (find_item v id); simpl.
  - rewrite andb_false_r. reflexivity.
  - destruct (maxitems v <=? nitems v); simpl; [reflexivity | discriminate].
Qed.

Lemma add_key_duplicate (v : VaultInfoData) (id key : list byte)
    (comment : option (list byte)) :
  present v id ->
  passes_size_checks id key comment ->
  add_key v (Some id) (Some key) comment = (v, Raise DuplicateIdentifier).
Proof.
  intros Hp (Hid & Hkey & Hc). unfold add_key.
  destruct (Z.leb_spec MAX_ID_LENGTH (Z.of_nat (strlen id))); [lia|].
  assert (Hc' : match comment with
                | Some c => MAX_COMMENT_LENGTH <=? Z.of_nat (strlen c)
                | None => false
                end = false).
  { destruct comment; [apply Z.leb_gt; exact Hc | reflexivity]. }
  rewrite Hc'.
  destruct (Z.leb_spec MAX_KEY_LENGTH (Z.of_nat (length key))); [lia|].
  destruct (find_item_present _ _ Hp) as [i ->]. simpl.
  rewrite andb_false_r. reflexivity.
Qed.

(** With the identifier present the call fails, and only in these ways. *)
Lemma add_key_present_fails (v : VaultInfoData) (id key : list byte)
    (comment : option (list byte)) :
  present v id ->
  exists e,
    add_key v (Some id) (Some key) comment = (v, Raise e)
    /\ (e = DuplicateIdentifier \/ e = IdentifierTooLong
        \/ e = CommentTooLong \/ e = PayloadTooLong).
Proof.
  intro Hp. unfold add_key.
  destruct (MAX_ID_LENGTH <=? Z.of_nat (strlen id)); [eauto 6|].
  destruct (match comment with
            | Some c => MAX_COMMENT_LENGTH <=? Z.of_nat (strlen c)
            | None => false
            end); [eauto 6|].
  destruct (MAX_KEY_LENGTH <=? Z.of_nat (length key)); [eauto 6|].
  destruct (find_item_present _ _ Hp) as [j ->]. simpl.
  rewrite andb_false_r. eauto 6.
Qed.

(** C4. A call of [add_key] that ends in an error, whichever it is,
    returns the segment it was given: no field and no byte of it is
    written.  When the identifier is already the identifier of a populated
    record the call always ends in an error and writes nothing; the error
    is [DuplicateIdentifier], full vault or not, once the arguments are
    through the size checks that precede the scan, and the length error
    of the oversized field otherwise; [nitems] is the same. *)
Theorem add_key_rejected_unmodified
    (v : VaultInfoData) (id key comment : option (list byte)) :
  (forall e, snd (add_key v id key comment) = Raise e ->
             fst (add_key v id key comment) = v)
  /\ (forall i k, id = Some i -> key = Some k -> present v i ->
        (exists e,
            add_key v id key comment = (v, Raise e)
            /\ (e = DuplicateIdentifier \/ e = IdentifierTooLong
                \/ e = CommentTooLong \/ e = PayloadTooLong))
        /\ (passes_size_checks i k comment ->
            add_key v id key comment = (v, Raise DuplicateIdentifier)
            /\ nitems (fst (add_key v id key comment)) = nitems v)).
Proof.
  split.
  - intros e. apply add_key_raise_unmodified.
  - intros i k -> -> Hp. split.
    + apply add_key_present_fails. exact Hp.
    + intro Hs. rewrite (add_key_duplicate _ _ _ _ Hp Hs). split; reflexivity.
Qed.

(** ** add_key: what an accepted call writes *)

Lemma valid_passes_size_checks (a : add_args) :
  valid_args a -> passes_size_checks (arg_id a) (arg_key a) (arg_comment a).
Proof.
  intros (Hid & Hkey & Hc). unfold passes_size_checks.
  split; [layout; lia|]. split; [layout; lia|].
  destruct (arg_comment a); [layout; lia | exact I].
Qed.

Lemma add_key_accepts (v : VaultInfoData) (id key : list byte)
    (comment : option (list byte)) :
  passes_size_checks id key comment ->
  ~ present v id ->
  nitems v < maxitems v ->
  add_key v (Some id) (Some key) comment
  = ({| lock := lock v; maxitems := maxitems v; nitems := nitems v + 1;
        items := added_items (items v) (nitems v) id key comment |},
     Return tt).
Proof.
  intros (Hid & Hkey & Hc) Hno Hroom. unfold add_key.
  destruct (Z.leb_spec MAX_ID_LENGTH (Z.of_nat (strlen id))); [lia|].
  assert (Hc' : match comment with
                | Some c => MAX_COMMENT_LENGTH <=? Z.of_nat (strlen c)
                | None => false
                end = false).
  { destruct comment; [apply Z.leb_gt; exact Hc | reflexivity]. }
  rewrite Hc'.
  destruct (Z.leb_spec MAX_KEY_LENGTH (Z.of_nat (length key))); [lia|].
  rewrite (find_item_absent _ _ Hno).
  destruct (Z.leb_spec (maxitems v) (nitems v)); [lia|].
  reflexivity.
Qed.

Lemma add_key_full (v : VaultInfoData) (id key : list byte)
    (comment : option (list byte)) :
  passes_size_checks id key comment ->
  ~ present v id ->
  maxitems v <= nitems v ->
  add_key v (Some id) (Some key) comment = (v, Raise CapacityExceeded).
Proof.
  intros (Hid & Hkey & Hc) Hno Hfull. unfold add_key.
  destruct (Z.leb_spec MAX_ID_LENGTH (Z.of_nat (strlen id))); [lia|].
  assert (Hc' : match comment with
                | Some c => MAX_COMMENT_LENGTH <=? Z.of_nat (strlen c)
                | None => false
                end = false).
  { destruct comment; [apply Z.leb_gt; exact Hc | reflexivity]. }
  rewrite Hc'.
  destruct (Z.leb_spec MAX_KEY_LENGTH (Z.of_nat (length key))); [lia|].
  rewrite (find_item_absent _ _ Hno).
  destruct (Z.leb_spec (maxitems v) (nitems v)); [reflexivity | lia].
Qed.

(** With valid arguments every byte [add_key] writes is in record [n]. *)
Lemma added_items_outside (m : mem) (n : Z) (a : add_args) (x : Z) :
  valid_args a ->
  ~ (item_addr n <= x < item_addr (n + 1)) ->
  added_items m n (arg_id a) (arg_key a) (arg_comment a) x = m x.
Proof.
  intros (Hid & Hkey & Hc) Hx. rewrite item_addr_succ in Hx.
  unfold added_items.
  destruct (arg_comment a) as [c|].
  - rewrite !memcpy_buf_other; [reflexivity | | |]; layout; lia.
  - rewrite !memcpy_buf_other; [reflexivity | |]; layout; lia.
Qed.

Lemma added_items_id (m : mem) (n : Z) (a : add_args) (j : nat) :
  valid_args a ->
  (j < strlen (arg_id a))%nat ->
  added_items m n (arg_id a) (arg_key a) (arg_comment a)
    (item_id n + Z.of_nat j)
  = nth j (arg_id a) x00.
Proof.
  intros (Hid & Hkey & Hc) Hj. unfold added_items.
  assert (E : memcpy_buf m (item_id n) (arg_id a)
                (Z.of_nat (strlen (arg_id a))) (item_id n + Z.of_nat j)
              = nth j (arg_id a) x00).
  { rewrite memcpy_buf_inside by lia. f_equal. lia. }
  destruct (arg_comment a) as [c|].
  - rewrite (memcpy_buf_other _ (item_comment n)) by (layout; lia).
    rewrite (memcpy_buf_other _ (item_key n)) by (layout; lia). exact E.
  - rewrite (memcpy_buf_other _ (item_key n)) by (layout; lia). exact E.
Qed.

Lemma added_items_id_end (m : mem) (n : Z) (a : add_args) :
  valid_args a ->
  added_items m n (arg_id a) (arg_key a) (arg_comment a)
    (item_id n + Z.of_nat (strlen (arg_id a)))
  = m (item_id n + Z.of_nat (strlen (arg_id a))).
Proof.
  intros (Hid & Hkey & Hc). unfold added_items.
  destruct (arg_comment a) as [c|].
  - rewrite !memcpy_buf_other; [reflexivity | | |]; layout; lia.
  - rewrite !memcpy_buf_other; [reflexivity | |]; layout; lia.
Qed.

Lemma added_items_key (m : mem) (n : Z) (a : add_args) (j : nat) :
  valid_args a ->
  (j < length (bytea (arg_key a)))%nat ->
  added_items m n (arg_id a) (arg_key a) (arg_comment a)
    (item_key n + Z.of_nat j)
  = nth j (bytea (arg_key a)) x00.
Proof.
  intros (Hid & Hkey & Hc) Hj. unfold added_items.
  pose proof (bytea_length (arg_key a)) as Hlen.
  assert (E : memcpy_buf
                (memcpy_buf m (item_id n) (arg_id a)
                   (Z.of_nat (strlen (arg_id a))))
                (item_key n) (bytea (arg_key a))
                (VARHDRSZ + Z.of_nat (length (arg_key a)))
                (item_key n + Z.of_nat j)
              = nth j (bytea (arg_key a)) x00).
  { rewrite memcpy_buf_inside by lia. f_equal. lia. }
  destruct (arg_comment a) as [c|].
  - rewrite (memcpy_buf_other _ (item_comment n)) by (layout; lia). exact E.
  - exact E.
Qed.

(** On a clean free record the stored identifier is the one given. *)
Lemma added_items_stored_id (m : mem) (n : Z) (a : add_args) :
  valid_args a ->
  m (item_id n + Z.of_nat (strlen (arg_id a))) = x00 ->
  stored_id (added_items m n (arg_id a) (arg_key a) (arg_comment a))
    n (arg_id a).
Proof.
  intros Hv Hz. unfold stored_id. apply mem_read_nth.
  - rewrite length_app, cstr_length. simpl. lia.
  - intros j Hj.
    destruct (Nat.eq_dec j (strlen (arg_id a))) as [->|Hne].
    + rewrite added_items_id_end by exact Hv. rewrite Hz.
      rewrite <- (cstr_length (arg_id a)) at 1. now rewrite nth_middle.
    + assert (Hlt : (j < strlen (arg_id a))%nat) by lia.
      rewrite added_items_id by assumption.
      rewrite app_nth1 by (rewrite cstr_length; exact Hlt).
      unfold cstr. rewrite nth_firstn.
      now rewrite (proj2 (Nat.ltb_lt _ _) Hlt).
Qed.

(** When the free record is clean where the identifier ends (as every
    record is that was not used since start-up or [delete_keys]), an
    [add_key] with valid arguments and a new
    identifier returns normally and [lookup_key] then returns the varlena
    of the key, byte for byte. *)
Theorem add_key_then_lookup_clean (v : VaultInfoData) (a : add_args) :
  valid_args a ->
  ~ present v (arg_id a) ->
  0 <= nitems v < maxitems v ->
  items v (item_id (nitems v) + Z.of_nat (strlen (arg_id a))) = x00 ->
  exists v',
    add_key v (Some (arg_id a)) (Some (arg_key a)) (arg_comment a)
    = (v', Return tt)
    /\ nitems v' = nitems v + 1
    /\ lookup_key v' (Some (arg_id a)) = Return (Some (bytea (arg_key a))).
Proof.
  intros Hv Hno Hn Hz.
  rewrite (add_key_accepts _ _ _ _ (valid_passes_size_checks _ Hv) Hno
             (proj2 Hn)).
  eexists. split; [reflexivity|]. split; [reflexivity|].
  set (m' := added_items (items v) (nitems v) (arg_id a) (arg_key a)
               (arg_comment a)).
  unfold lookup_key.
  rewrite (find_item_first _ _ (nitems v)); simpl.
  - fold m'.
    assert (Hsz : VARSIZE_ANY m' (item_key (nitems v))
                  = VARHDRSZ + Z.of_nat (length (arg_key a))).
    { apply VARSIZE_ANY_bytea.
      - destruct Hv as (_ & Hkey & _). layout. lia.
      - intros j Hj. apply added_items_key; [exact Hv|].
        pose proof (bytea_length (arg_key a)). layout. lia. }
    rewrite Hsz. do 2 f_equal. apply mem_read_nth.
    + pose proof (bytea_length (arg_key a)). lia.
    + intros j Hj. apply added_items_key; [exact Hv|].
      pose proof (bytea_length (arg_key a)). lia.
  - lia.
  - apply added_items_stored_id; assumption.
  - intros j Hj Hst. apply Hno. exists j. split; [lia|].
    unfold stored_id in *. rewrite <- Hst. symmetry. apply mem_read_ext.
    intros x Hx. apply added_items_outside; [exact Hv|].
    destruct Hv as (Hid & _). layout. lia.
Qed.

(** ** Filling a fresh vault *)

Lemma filled_not_present (v : VaultInfoData) (ids : list (list byte))
    (bytes : Z) (id : list byte) :
  filled v ids bytes -> ~ In (cstr id) (map cstr ids) -> ~ present v id.
Proof.
  intros (_ & Hids & _) Hnew (i & Hi & Hst).
  destruct (Hids i Hi) as (id' & Hin & _ & Hst').
  apply Hnew. rewrite (stored_id_unique _ _ _ _ Hst Hst').
  now apply in_map.
Qed.

Lemma add_key_fills_one (v : VaultInfoData) (ids : list (list byte))
    (bytes : Z) (a : add_args) :
  filled v ids bytes ->
  valid_args a ->
  ~ In (arg_cstr a) (map cstr ids) ->
  nitems v < maxitems v ->
  maxitems v * sizeof_VaultItemData <= bytes ->
  exists v',
    add_key v (Some (arg_id a)) (Some (arg_key a)) (arg_comment a)
    = (v', Return tt)
    /\ nitems v' = nitems v + 1
    /\ maxitems v' = maxitems v
    /\ filled v' (arg_id a :: ids) bytes.
Proof.
  intros Hf Hv Hnew Hroom Hfit.
  pose proof (filled_not_present _ _ _ _ Hf Hnew) as Hno.
  destruct Hf as (Hn0 & Hids & Hclean).
  rewrite (add_key_accepts _ _ _ _ (valid_passes_size_checks _ Hv) Hno Hroom).
  eexists. split; [reflexivity|]. unfold filled. simpl.
  split; [reflexivity|]. split; [reflexivity|].
  split; [lia|]. split.
  - intros i Hi. destruct (Z.eq_dec i (nitems v)) as [->|Hne].
    + exists (arg_id a). split; [now left|].
      split; [destruct Hv as (Hid & _); layout; lia|].
      apply added_items_stored_id; [exact Hv|].
      apply Hclean. destruct Hv as (Hid & _). layout. nia.
    + destruct (Hids i) as (id & Hin & Hlen & Hst); [lia|].
      exists id. split; [now right|]. split; [exact Hlen|].
      unfold stored_id in *. rewrite <- Hst. apply mem_read_ext.
      intros x Hx. apply added_items_outside; [exact Hv|].
      layout. lia.
  - intros x Hx. rewrite added_items_outside; [|exact Hv|layout; lia].
    apply Hclean. layout. lia.
Qed.

Lemma add_keys_cons (v : VaultInfoData) (a : add_args) (l : list add_args) :
  add_keys v (a :: l)
  = (fst (add_keys (fst (add_key v (Some (arg_id a)) (Some (arg_key a))
                           (arg_comment a))) l),
     snd (add_key v (Some (arg_id a)) (Some (arg_key a)) (arg_comment a))
       :: snd (add_keys (fst (add_key v (Some (arg_id a)) (Some (arg_key a))
                                (arg_comment a))) l)).
Proof. reflexivity. Qed.

Lemma add_keys_fill (l : list add_args) :
  forall v ids bytes,
    filled v ids bytes ->
    Forall valid_args l ->
    NoDup (map arg_cstr l) ->
    (forall a, In a l -> ~ In (arg_cstr a) (map cstr ids)) ->
    nitems v + Z.of_nat (length l) <= maxitems v ->
    maxitems v * sizeof_VaultItemData <= bytes ->
    exists v',
      add_keys v l = (v', repeat (Return tt) (length l))
      /\ nitems v' = nitems v + Z.of_nat (length l)
      /\ maxitems v' = maxitems v
      /\ filled v' (rev (map arg_id l) ++ ids) bytes.
Proof.
  induction l as [|a l IH]; intros v ids bytes Hf Hv Hnd Hnew Hroom Hfit.
  - exists v. simpl. repeat split; try lia; apply Hf.
  - inversion Hv as [|? ? Hva Hvl]; subst.
    inversion Hnd as [|? ? Hna Hndl]; subst.
    destruct (add_key_fills_one v ids bytes a Hf Hva) as (v1 & E1 & Hn1 & Hm1 & Hf1).
    { apply Hnew. now left. }
    { simpl length in Hroom. lia. }
    { exact Hfit. }
    destruct (IH v1 (arg_id a :: ids) bytes Hf1 Hvl Hndl) as (v2 & E2 & Hn2 & Hm2 & Hf2).
    { intros b Hb [Heq|Hin].
      - apply Hna. unfold arg_cstr at 1. rewrite Heq. now apply in_map.
      - apply (Hnew b); [now right | exact Hin]. }
    { simpl length in Hroom. lia. }
    { lia. }
    exists v2. rewrite add_keys_cons, E1. simpl fst. simpl snd. rewrite E2.
    simpl. split; [reflexivity|]. split; [lia|]. split; [lia|].
    rewrite <- app_assoc. exact Hf2.
Qed.

(** From the segment start-up leaves, [add_key] calls with valid
    arguments and pairwise distinct identifiers, as many as [maxitems],
    all return normally and bring [nitems] to [maxitems]; one more call
    with a further valid identifier ends in [CapacityExceeded] and the
    segment, [nitems] included, stays as it was. *)
Theorem add_keys_to_capacity
    (pgvault_mem_max_size offsetof_items : Z)
    (seg : VaultInfoData) (new_lock : Z)
    (l : list add_args) (extra : add_args) :
  0 <= offsetof_items <= pgvault_mem_max_size ->
  pgvault_mem_max_size < 2 ^ 31 ->
  let v0 := pgvault_shmem_startup pgvault_mem_max_size offsetof_items
              seg false new_lock in
  Z.of_nat (length l) = maxitems v0 ->
  Forall valid_args (l ++ [extra]) ->
  NoDup (map arg_cstr (l ++ [extra])) ->
  exists v,
    add_keys v0 l = (v, repeat (Return tt) (length l))
    /\ nitems v = maxitems v0
    /\ maxitems v = maxitems v0
    /\ add_key v (Some (arg_id extra)) (Some (arg_key extra))
         (arg_comment extra)
       = (v, Raise CapacityExceeded).
Proof.
  intros Hoff Hint v0 Hlen Hv Hnd.
  apply Forall_app in Hv. destruct Hv as [Hvl Hve].
  inversion Hve as [|? ? Hvx _]; subst.
  rewrite map_app in Hnd. simpl in Hnd.
  pose proof (NoDup_remove_1 _ _ _ Hnd) as Hndl. rewrite app_nil_r in Hndl.
  pose proof (NoDup_remove_2 _ _ _ Hnd) as Hx. rewrite app_nil_r in Hx.
  destruct (startup_slots_fit pgvault_mem_max_size offsetof_items seg
              new_lock Hoff Hint) as [Hm0 Hfit].
  fold v0 in Hm0, Hfit.
  assert (Hf0 : filled v0 [] (items_bytes pgvault_mem_max_size offsetof_items)).
  { split; [simpl; lia|]. split.
    - intros i Hi. simpl in Hi. lia.
    - intros a Ha. unfold v0. simpl. apply memset0_zero.
      simpl in Ha. layout. lia. }
  destruct (add_keys_fill l v0 [] _ Hf0 Hvl Hndl) as (v & E & Hn & Hm & Hf).
  { intros a _ []. }
  { simpl (nitems v0). lia. }
  { exact Hfit. }
  exists v. split; [exact E|]. simpl (nitems v0) in Hn.
  split; [lia|]. split; [exact Hm|].
  apply add_key_full.
  - apply valid_passes_size_checks. exact Hvx.
  - apply (filled_not_present _ _ _ _ Hf).
    rewrite app_nil_r, map_rev, <- in_rev, map_map. exact Hx.
  - lia.
Qed.

(** ** delete_key *)

(** C6. [delete_key] for an identifier whose first matching record is at
    index [i]: [nitems] goes down by one, the bytes of record [i] become
    the bytes of the last populated record, and no other byte of the
    array changes; for an identifier no populated record has, the call
    returns normally and the segment is the one it was given. *)
Theorem delete_key_postcondition (v : VaultInfoData) (id : list byte) :
  (forall i,
      0 <= i < nitems v ->
      stored_id (items v) i id ->
      (forall j, 0 <= j < i -> ~ stored_id (items v) j id) ->
      exists v',
        delete_key v (Some id) = (v', Return tt)
        /\ nitems v' = nitems v - 1
        /\ maxitems v' = maxitems v
        /\ lock v' = lock v
        /\ (forall b, 0 <= b < sizeof_VaultItemData ->
              items v' (item_addr i + b)
              = items v (item_addr (nitems v - 1) + b))
        /\ (forall a, ~ (item_addr i <= a < item_addr (i + 1)) ->
              items v' a = items v a))
  /\ (~ present v id -> delete_key v (Some id) = (v, Return tt)).
Proof.
  split.
  - intros i Hr Hi Hb. unfold delete_key.
    rewrite (find_item_first _ _ _ Hr Hi Hb).
    eexists. split; [reflexivity|]. simpl.
    repeat (split; [reflexivity|]). split.
    + intros b Hbr. unfold memcpy_mem.
      assert (E : in_range (item_addr i) sizeof_VaultItemData
                    (item_addr i + b) = true) by (apply in_range_true; lia).
      rewrite E. f_equal. lia.
    + intros a Ha. unfold memcpy_mem. rewrite item_addr_succ in Ha.
      assert (E : in_range (item_addr i) sizeof_VaultItemData a = false)
        by (apply in_range_false; exact Ha).
      rewrite E. reflexivity.
  - intro Hno. unfold delete_key. rewrite (find_item_absent _ _ Hno).
    reflexivity.
Qed.

(** After [delete_key] the records below the new [nitems] are old
    records: record [i] is the old last one, the others are themselves. *)
Lemma delete_stored_id (m : mem) (i n j : Z) (id : list byte) :
  Z.of_nat (strlen id) < sizeof_VaultItemData ->
  stored_id (memcpy_mem m (item_addr i) (item_addr n) sizeof_VaultItemData)
    j id
  <-> stored_id m (if Z.eq_dec j i then n else j) id.
Proof.
  intro Hlen. unfold stored_id.
  assert (E : mem_read
                (memcpy_mem m (item_addr i) (item_addr n) sizeof_VaultItemData)
                (item_id j) (S (strlen id))
              = mem_read m (item_id (if Z.eq_dec j i then n else j))
                  (S (strlen id))).
  { apply mem_read_shift. intros k Hk. unfold memcpy_mem.
    destruct (Z.eq_dec j i) as [->|Hne].
    - assert (R : in_range (item_addr i) sizeof_VaultItemData (item_id i + k)
                  = true) by (apply in_range_true; layout; lia).
      rewrite R. f_equal. layout. lia.
    - assert (R : in_range (item_addr i) sizeof_VaultItemData (item_id j + k)
                  = false) by (apply in_range_false; layout; lia).
      rewrite R. reflexivity. }
  rewrite E. tauto.
Qed.

Lemma delete_key_found (v : VaultInfoData) (id : list byte) (i : Z) :
  find_item v id = Some i ->
  delete_key v (Some id)
  = ({| lock := lock v; maxitems := maxitems v; nitems := nitems v - 1;
        items := memcpy_mem (items v) (item_addr i)
                   (item_addr (nitems v - 1)) sizeof_VaultItemData |},
     Return tt).
Proof. intro E. unfold delete_key. now rewrite E. Qed.

(** [delete_key] then [lookup_key]: not found, when the identifiers were
    distinct and the identifier fits a record. *)
Theorem delete_key_then_lookup (v : VaultInfoData) (id : list byte) :
  ids_unique v ->
  Z.of_nat (strlen id) < sizeof_VaultItemData ->
  lookup_key (fst (delete_key v (Some id))) (Some id) = Return None.
Proof.
  intros Hu Hlen. unfold lookup_key.
  destruct (find_item v id) as [i|] eqn:E.
  - rewrite (delete_key_found _ _ _ E). simpl fst.
    rewrite find_item_absent; [reflexivity|].
    apply find_item_some in E. destruct E as [Hi Hst].
    intros (j & Hj & Hj'). simpl in Hj, Hj'.
    apply delete_stored_id in Hj'; [|exact Hlen].
    destruct (Z.eq_dec j i) as [->|Hne].
    + assert (nitems v - 1 = i); [|lia].
      apply (Hu _ _ id); [lia | lia | exact Hj' | exact Hst].
    + apply Hne. apply (Hu _ _ id); [lia | lia | exact Hj' | exact Hst].
  - unfold delete_key. rewrite E. simpl. now rewrite E.
Qed.

(** ** delete_keys *)

(** C8. After [delete_keys]: [nitems] is 0, [maxitems] and [lock] are
    what they were, every byte of the segment from [items] to its end is
    zero (so every field of each of the [maxitems] records, when the array
    fits the segment, as it does from start-up on), and [lookup_key]
    returns NULL for every identifier. *)
Theorem delete_keys_clears
    (pgvault_mem_max_size offsetof_items : Z) (v : VaultInfoData) :
  let v' := fst (delete_keys pgvault_mem_max_size offsetof_items v) in
  snd (delete_keys pgvault_mem_max_size offsetof_items v) = Return tt
  /\ nitems v' = 0
  /\ maxitems v' = maxitems v
  /\ lock v' = lock v
  /\ (forall a, 0 <= a < pgvault_mem_max_size - offsetof_items ->
        items v' a = x00)
  /\ (maxitems v * sizeof_VaultItemData
        <= pgvault_mem_max_size - offsetof_items ->
      forall i b, 0 <= i < maxitems v -> 0 <= b < sizeof_VaultItemData ->
        items v' (item_addr i + b) = x00)
  /\ (forall id, lookup_key v' (Some id) = Return None).
Proof.
  intro v'. split; [reflexivity|]. split; [reflexivity|].
  split; [reflexivity|]. split; [reflexivity|].
  assert (Hz : forall a, 0 <= a < pgvault_mem_max_size - offsetof_items ->
                         items v' a = x00).
  { intros a Ha. unfold v'. simpl. apply memset0_zero.
    unfold items_bytes. lia. }
  split; [exact Hz|]. split.
  - intros Hfit i b Hi Hb. apply Hz. layout. nia.
  - intro id. reflexivity.
Qed.

(** ** The copy of vault_copy and the rows of list_keys *)

Lemma strip_loop_keeps_zero (n : nat) :
  forall m i0 a, m a = x00 -> strip_loop m i0 n a = x00.
Proof.
  induction n as [|n IH]; intros m i0 a H; simpl; [exact H|].
  apply IH. unfold memset0. destruct (in_range _ _ a); [reflexivity | exact H].
Qed.

Lemma strip_loop_inside (n : nat) :
  forall m i0 i a,
    i0 <= i < i0 + Z.of_nat n -> in_key_field i a ->
    strip_loop m i0 n a = x00.
Proof.
  induction n as [|n IH]; intros m i0 i a Hi Ha; simpl; [lia|].
  destruct (Z.eq_dec i i0) as [->|Hne].
  - apply strip_loop_keeps_zero. apply memset0_zero. exact Ha.
  - apply (IH _ _ i); [lia | exact Ha].
Qed.

Lemma strip_loop_outside (n : nat) :
  forall m i0 a,
    (forall i, i0 <= i < i0 + Z.of_nat n -> ~ in_key_field i a) ->
    strip_loop m i0 n a = m a.
Proof.
  induction n as [|n IH]; intros m i0 a H; simpl; [reflexivity|].
  rewrite IH.
  - apply memset0_other. apply (H i0). lia.
  - intros i Hi. apply H. lia.
Qed.

Lemma vault_copy_key_zero (size off : Z) (b : bool) (v : VaultInfoData)
    (i a : Z) :
  0 <= i < nitems v -> in_key_field i a ->
  items (vault_copy size off b v) a = x00.
Proof.
  intros Hi Ha. simpl. apply (strip_loop_inside _ _ _ i); [lia | exact Ha].
Qed.

Lemma vault_copy_elsewhere (size off : Z) (b : bool) (v : VaultInfoData)
    (a : Z) :
  (forall i, 0 <= i < nitems v -> ~ in_key_field i a) ->
  items (vault_copy size off b v) a
  = if in_range 0 (items_bytes size off) a then items v a else x00.
Proof.
  intro H. simpl. apply strip_loop_outside.
  intros i Hi. apply H. lia.
Qed.

(** C10. [vault_copy] zeroes the [key] field of the records below
    [nitems] and of no other: a [key] byte of a record at or above
    [nitems] that lies in the segment is in the copy as it is in the
    segment.  So after [add_key('a', 'secret')] and [delete_key('a')] on a
    fresh vault, [nitems] is 0, [lookup_key('a')] finds nothing, and the
    copy still holds the varlena of 'secret' in the [key] field of
    record 0. *)
Theorem vault_copy_strips_only_populated :
  (forall size off b v i a,
      0 <= i < nitems v -> in_key_field i a ->
      items (vault_copy size off b v) a = x00)
  /\ (forall size off b v i a,
      0 <= i -> nitems v <= i -> in_key_field i a ->
      a < items_bytes size off ->
      items (vault_copy size off b v) a = items v a)
  /\ (let v1 := fst (add_key fresh_vault (Some (text "a"))
                       (Some (text "secret")) None) in
      let v2 := fst (delete_key v1 (Some (text "a"))) in
      nitems v2 = 0
      /\ lookup_key v2 (Some (text "a")) = Return None
      /\ mem_read (items (vault_copy default_max_size default_items_offset
                            true v2))
           (item_key 0) 10
         = bytea (text "secret")).
Proof.
  split; [|split].
  - intros size off b v i a. apply vault_copy_key_zero.
  - intros size off b v i a Hi0 Hi Ha Hin.
    rewrite vault_copy_elsewhere.
    + assert (E : in_range 0 (items_bytes size off) a = true).
      { apply in_range_true. unfold in_key_field in Ha. layout. lia. }
      now rewrite E.
    + intros j Hj. unfold in_key_field in *. layout. lia.
  - vm_compute. repeat split.
Qed.

(** A C string read stops at the first NUL: it is the same in two arrays
    that agree up to a NUL, and it needs fuel only up to that NUL. *)
Lemma mem_cstring_agree (fuel : nat) :
  forall m m' p q,
    p <= q -> m q = x00 ->
    (forall a, p <= a <= q -> m' a = m a) ->
    mem_cstring fuel m' p = mem_cstring fuel m p.
Proof.
  induction fuel as [|f IH]; intros m m' p q Hpq Hq Hag; simpl; [reflexivity|].
  rewrite (Hag p) by lia.
  destruct (is_nul (m p)) eqn:E; [reflexivity|].
  assert (p <> q).
  { intros ->. apply is_nul_true in Hq. congruence. }
  f_equal. apply (IH _ _ _ q); [lia | exact Hq |].
  intros a Ha. apply Hag. lia.
Qed.

Lemma mem_cstring_total (fuel : nat) :
  forall m p q,
    p <= q < p + Z.of_nat fuel -> m q = x00 ->
    exists s, mem_cstring fuel m p = Some s.
Proof.
  induction fuel as [|f IH]; intros m p q Hpq Hq; simpl; [lia|].
  destruct (is_nul (m p)) eqn:E; [eauto|].
  assert (p <> q).
  { intros ->. apply is_nul_true in Hq. congruence. }
  destruct (IH m (p + 1) q) as [s ->]; [lia | exact Hq |]. simpl. eauto.
Qed.

(** The bytes of a C string are bytes before its NUL, none of them zero. *)
Lemma mem_cstring_bytes (fuel : nat) :
  forall m p q s,
    mem_cstring fuel m p = Some s -> p <= q -> m q = x00 ->
    forall b, In b s -> exists a, p <= a < q /\ m a = b /\ b <> x00.
Proof.
  induction fuel as [|f IH]; intros m p q s H Hpq Hq b Hb; simpl in H;
    [discriminate|].
  destruct (is_nul (m p)) eqn:E.
  - injection H as <-. contradiction.
  - assert (p <> q).
    { intros ->. apply is_nul_true in Hq. congruence. }
    destruct (mem_cstring f m (p + 1)) as [s'|] eqn:E'; [|discriminate].
    simpl in H. injection H as <-. destruct Hb as [<-|Hb].
    + exists p. split; [lia|]. split; [reflexivity|].
      intro Hz. apply is_nul_true in Hz. congruence.
    + destruct (IH m (p + 1) q s' E' ltac:(lia) Hq b Hb) as (a & Ha & Hm & Hn).
      exists a. split; [lia|]. split; assumption.
Qed.

Lemma fields_before_key (k i a : Z) :
  item_id k <= a < item_key k -> ~ in_key_field i a.
Proof. unfold in_key_field. layout. lia. Qed.

Lemma list_keys_tuple_total (size off : Z) (fuel : nat) (v : VaultInfoData)
    (k : Z) :
  (320 <= fuel)%nat -> 0 <= k < nitems v ->
  exists t, list_keys_tuple fuel (vault_copy size off true v) k = Some t
            /\ row_of_fields v k t.
Proof.
  intros Hf Hk. unfold list_keys_tuple.
  set (c := items (vault_copy size off true v)).
  assert (Hz : c (item_key k) = x00).
  { apply (vault_copy_key_zero _ _ _ _ k); [exact Hk|].
    unfold in_key_field. layout. lia. }
  assert (Hsrc : forall p s, item_id k <= p <= item_key k ->
            mem_cstring fuel c p = Some s ->
            forall b, In b s -> exists a, p <= a < item_key k /\ items v a = b).
  { intros p s Hp Hs b Hb.
    destruct (mem_cstring_bytes fuel c p (item_key k) s Hs ltac:(lia) Hz b Hb)
      as (a & Ha & Hm & Hn).
    exists a. split; [exact Ha|]. unfold c in Hm.
    rewrite vault_copy_elsewhere in Hm
      by (intros i _; apply (fields_before_key k); lia).
    destruct (in_range 0 (items_bytes size off) a); [exact Hm | congruence]. }
  destruct (mem_cstring_total fuel c (item_id k) (item_key k)) as [s Es];
    [layout; lia | exact Hz |].
  destruct (mem_cstring_total fuel c (item_comment k) (item_key k)) as [d Ed];
    [layout; lia | exact Hz |].
  rewrite Es, Ed. eexists. split; [reflexivity|]. unfold row_of_fields. simpl.
  split; [|split; [|reflexivity]].
  - apply (Hsrc (item_id k)); [layout; lia | exact Es].
  - apply (Hsrc (item_comment k)); [layout; lia | exact Ed].
Qed.

Lemma list_keys_tuple_same (size off : Z) (fuel : nat) (v v' : VaultInfoData)
    (k : Z) :
  same_but_keys v v' -> 0 <= k < nitems v ->
  list_keys_tuple fuel (vault_copy size off true v') k
  = list_keys_tuple fuel (vault_copy size off true v) k.
Proof.
  intros (_ & _ & Hn & Hag) Hk. unfold list_keys_tuple.
  assert (Hz : items (vault_copy size off true v) (item_key k) = x00).
  { apply (vault_copy_key_zero _ _ _ _ k); [exact Hk|].
    unfold in_key_field. layout. lia. }
  assert (Hsame : forall a, item_id k <= a <= item_key k ->
            items (vault_copy size off true v') a
            = items (vault_copy size off true v) a).
  { intros a Ha. destruct (Z.eq_dec a (item_key k)) as [->|Hne].
    - rewrite Hz. apply (vault_copy_key_zero _ _ _ _ k); [lia|].
      unfold in_key_field. layout. lia.
    - assert (Hout : forall i, ~ in_key_field i a).
      { intro i. apply (fields_before_key k). lia. }
      rewrite !vault_copy_elsewhere by (intros; apply Hout).
      rewrite (Hag a Hout). reflexivity. }
  rewrite (mem_cstring_agree fuel (items (vault_copy size off true v))
             (items (vault_copy size off true v'))
             (item_id k) (item_key k));
    [| layout; lia | exact Hz | exact Hsame].
  rewrite (mem_cstring_agree fuel (items (vault_copy size off true v))
             (items (vault_copy size off true v'))
             (item_comment k) (item_key k));
    [reflexivity | layout; lia | exact Hz |].
  intros a Ha. apply Hsame. layout. lia.
Qed.

Lemma list_keys_calls_length (fuel : nat) (c : VaultInfoData) (n : nat) :
  forall k, length (list_keys_calls fuel c k n) = n.
Proof. induction n as [|n IH]; intro k; simpl; [reflexivity | now rewrite IH]. Qed.

Lemma list_keys_calls_In (fuel : nat) (c : VaultInfoData) (n : nat) :
  forall k o, In o (list_keys_calls fuel c k n) ->
    exists j, k <= j < k + Z.of_nat n /\ o = list_keys_tuple fuel c j.
Proof.
  induction n as [|n IH]; intros k o H; simpl in H; [contradiction|].
  destruct H as [<-|H].
  - exists k. split; [lia | reflexivity].
  - apply IH in H. destruct H as (j & Hj & ->). exists j. split; [lia | reflexivity].
Qed.

Lemma list_keys_calls_same (fuel : nat) (c c' : VaultInfoData) (n : nat) :
  forall k,
    (forall j, k <= j < k + Z.of_nat n ->
       list_keys_tuple fuel c' j = list_keys_tuple fuel c j) ->
    list_keys_calls fuel c' k n = list_keys_calls fuel c k n.
Proof.
  induction n as [|n IH]; intros k H; simpl; [reflexivity|].
  rewrite (H k) by lia. f_equal. apply IH. intros j Hj. apply H. lia.
Qed.

(** For a segment whose [nitems] is a count, [list_keys] emits one
    row per populated record.  With fuel for a record's two text fields
    every row is produced; it is the row of a populated record [k], every
    byte of it is a byte of the [id] or [comment] field of record [k], and
    its [key] column is NULL.  And the rows are the same for any segment
    that differs only in bytes of [key] fields: no byte of a [key] field
    reaches a row. *)
Theorem list_keys_no_payload
    (pgvault_mem_max_size offsetof_items : Z) (fuel : nat)
    (v : VaultInfoData) :
  0 <= nitems v < 2 ^ 32 ->
  length (list_keys pgvault_mem_max_size offsetof_items fuel v)
  = Z.to_nat (nitems v)
  /\ ((320 <= fuel)%nat ->
      forall o, In o (list_keys pgvault_mem_max_size offsetof_items fuel v) ->
        exists k t, 0 <= k < nitems v /\ o = Some t /\ row_of_fields v k t)
  /\ (forall v', same_but_keys v v' ->
        list_keys pgvault_mem_max_size offsetof_items fuel v'
        = list_keys pgvault_mem_max_size offsetof_items fuel v).
Proof.
  intro Hn. unfold list_keys. rewrite (Z.mod_small (nitems v)) by lia.
  split; [apply list_keys_calls_length|]. split.
  - intros Hf o Ho. apply list_keys_calls_In in Ho.
    destruct Ho as (j & Hj & ->).
    destruct (list_keys_tuple_total pgvault_mem_max_size offsetof_items
                fuel v j Hf) as (t & -> & Ht); [lia|].
    exists j, t. split; [lia|]. split; [reflexivity | exact Ht].
  - intros v' Hs. pose proof Hs as (_ & _ & Hn' & _). rewrite Hn'.
    rewrite (Z.mod_small (nitems v)) by lia.
    apply list_keys_calls_same. intros j Hj.
    apply list_keys_tuple_same; [exact Hs | lia].
Qed.

(** ** Records left dirty by delete_key, keys that overrun their field *)

(** C1 at an input where it fails.  'abcdef' is added and deleted, which
    leaves its bytes in record 0; [add_key('abc', '9')] then succeeds, and
    [lookup_key('abc')] returns NULL: the key is found under 'abcdef'. *)
Theorem add_key_dirty_slot_lookup_misses :
  let v1 := fst (add_key fresh_vault (Some (text "abcdef"))
                   (Some (text "1")) None) in
  let v2 := fst (delete_key v1 (Some (text "abcdef"))) in
  let r := add_key v2 (Some (text "abc")) (Some (text "9")) None in
  snd (delete_key v1 (Some (text "abcdef"))) = Return tt
  /\ snd r = Return tt
  /\ lookup_key (fst r) (Some (text "abc")) = Return None
  /\ lookup_key (fst r) (Some (text "abcdef"))
     = Return (Some (bytea (text "9"))).
Proof. vm_compute. repeat split. Qed.

(** C3 at an input where it fails.  After [add_key('abc')],
    [add_key('xbc')] and [delete_key('xbc')] one record is populated and
    record 1 still holds 'xbc'; [add_key('a')] succeeds and leaves
    records 0 and 1 both with the identifier 'abc'. *)
Theorem add_key_dirty_slot_duplicates :
  let v1 := fst (add_key fresh_vault (Some (text "abc"))
                   (Some (text "1")) None) in
  let v2 := fst (add_key v1 (Some (text "xbc")) (Some (text "2")) None) in
  let v3 := fst (delete_key v2 (Some (text "xbc"))) in
  let r := add_key v3 (Some (text "a")) (Some (text "3")) None in
  ids_unique v3
  /\ snd r = Return tt
  /\ nitems (fst r) = 2
  /\ stored_id (items (fst r)) 0 (text "abc")
  /\ stored_id (items (fst r)) 1 (text "abc")
  /\ ~ ids_unique (fst r).
Proof.
  cbv zeta.
  assert (H0 : stored_id
            (items (fst (add_key
               (fst (delete_key
                  (fst (add_key
                     (fst (add_key fresh_vault (Some (text "abc"))
                             (Some (text "1")) None))
                     (Some (text "xbc")) (Some (text "2")) None))
                  (Some (text "xbc"))))
               (Some (text "a")) (Some (text "3")) None))) 0 (text "abc"))
    by (vm_compute; reflexivity).
  assert (H1 : stored_id
            (items (fst (add_key
               (fst (delete_key
                  (fst (add_key
                     (fst (add_key fresh_vault (Some (text "abc"))
                             (Some (text "1")) None))
                     (Some (text "xbc")) (Some (text "2")) None))
                  (Some (text "xbc"))))
               (Some (text "a")) (Some (text "3")) None))) 1 (text "abc"))
    by (vm_compute; reflexivity).
  split; [|split; [|split; [|split; [|split]]]].
  - intros i j id Hi Hj _ _.
    change (0 <= i < 1) in Hi. change (0 <= j < 1) in Hj. lia.
  - vm_compute. reflexivity.
  - vm_compute. reflexivity.
  - exact H0.
  - exact H1.
  - intro Hu. specialize (Hu 0 1 (text "abc")).
    assert (E : 0 = 1); [|discriminate].
    apply Hu; [vm_compute; split; [discriminate | reflexivity]
              | vm_compute; split; [discriminate | reflexivity]
              | exact H0 | exact H1].
Qed.

(** C5 at an input where it fails.  The segment for three records is
    empty after 'abcdef' was added and deleted, and record 0 still holds
    its bytes.  Of three adds with valid arguments and the distinct
    identifiers 'abc', 'abcdef' and 'z', the first stores 'abc' over
    'abcdef' and leaves 'abcdef', so the second ends in
    [DuplicateIdentifier]; two records are populated after the three
    calls, and the fourth add returns normally. *)
Theorem add_keys_dirty_empty_store :
  reachable three_max_size default_items_offset three_dirty
  /\ nitems three_dirty = 0
  /\ maxitems three_dirty = Z.of_nat (length dirty_adds)
  /\ Forall valid_args (dirty_adds ++ [dirty_fourth])
  /\ NoDup (map arg_cstr (dirty_adds ++ [dirty_fourth]))
  /\ snd (add_keys three_dirty dirty_adds)
     = [Return tt; Raise DuplicateIdentifier; Return tt]
  /\ nitems (fst (add_keys three_dirty dirty_adds)) = 2
  /\ snd (add_key (fst (add_keys three_dirty dirty_adds))
            (Some (arg_id dirty_fourth)) (Some (arg_key dirty_fourth))
            (arg_comment dirty_fourth))
     = Return tt.
Proof.
  split; [apply reach_delete_key, reach_add_key, reach_startup|].
  split; [vm_compute; reflexivity|].
  split; [vm_compute; reflexivity|].
  split; [repeat constructor; concrete_le|].
  split; [vm_compute; repeat constructor; simpl; intuition discriminate|].
  vm_compute. repeat split.
Qed.

(** C2 at an input where it fails.  A key of 1023 bytes passes the size
    check, its varlena has 1027 bytes, and [add_key] copies all of them:
    the first byte of record 1, zero before the call, holds a byte of the
    key after it. *)
Theorem add_key_writes_past_key_field :
  let data := repeat "A"%byte 1023 in
  let r := add_key fresh_vault (Some (text "k")) (Some data) None in
  snd r = Return tt
  /\ MAX_KEY_LENGTH < Z.of_nat (length (bytea data))
  /\ item_key 0 + MAX_KEY_LENGTH = item_id 1
  /\ items fresh_vault (item_id 1) = x00
  /\ items (fst r) (item_id 1) = "A"%byte.
Proof. vm_compute. repeat split. Qed.

(** What an overrun does next: the last three bytes of a 1023-byte
    key land in the [id] field of record 1; [add_key('a')] then stores
    'a' followed by two of them, so [lookup_key('a')] finds nothing,
    [list_keys] shows the two key bytes in the identifier, and
    [add_key('abc')], an identifier never added, is refused as a
    duplicate. *)
Theorem add_key_overrun_collides :
  let data := repeat "A"%byte 1020 ++ text "xbc" in
  let v1 := fst (add_key fresh_vault (Some (text "k")) (Some data) None) in
  let r2 := add_key v1 (Some (text "a")) (Some (text "1")) None in
  snd r2 = Return tt
  /\ lookup_key (fst r2) (Some (text "a")) = Return None
  /\ nth 1 (list_keys default_max_size default_items_offset 320 (fst r2)) None
     = Some {| tup_id := text "abc"; tup_key := None; tup_comment := [] |}
  /\ snd (add_key (fst r2) (Some (text "abc")) (Some (text "2")) None)
     = Raise DuplicateIdentifier.
Proof. vm_compute. repeat split. Qed.

(** C7 at an input where it fails.  The key of 'k' has 1023 bytes, the
    last three 'SEC'; [add_key] accepts it and writes these three past
    the [key] field, into the [id] field of record 1.  After an add with
    the empty identifier, which writes no identifier byte, [list_keys]
    emits for record 1 the identifier 'SEC': three bytes of the key that
    [lookup_key('k')] returns. *)
Theorem list_keys_shows_key_bytes :
  let data := repeat "A"%byte 1020 ++ text "SEC" in
  let r1 := add_key fresh_vault (Some (text "k")) (Some data) None in
  let r2 := add_key (fst r1) (Some []) (Some (text "1")) None in
  snd r1 = Return tt
  /\ snd r2 = Return tt
  /\ lookup_key (fst r2) (Some (text "k")) = Return (Some (bytea data))
  /\ skipn 1020 data = text "SEC"
  /\ list_keys default_max_size default_items_offset 320 (fst r2)
     = [ Some {| tup_id := text "k"; tup_key := None; tup_comment := [] |};
         Some {| tup_id := text "SEC"; tup_key := None;
                 tup_comment := [] |} ].
Proof. vm_compute. repeat split. Qed.

(** ** The scenarios *)

(** The scenario of a vault for exactly three records: the three adds
    succeed, the fourth ends in [CapacityExceeded], and after
    [delete_key('b')] two records are left, 'b' is not found and 'a' and
    'c' still have their keys. *)
Theorem scenario_three_records :
  maxitems three_fresh = 3
  /\ snd (add_keys three_fresh three_adds)
     = [Return tt; Return tt; Return tt]
  /\ nitems three_full = 3
  /\ add_key three_full (Some (text "d")) (Some ["000"%byte]) None
     = (three_full, Raise CapacityExceeded)
  /\ (let v := fst (delete_key three_full (Some (text "b"))) in
      snd (delete_key three_full (Some (text "b"))) = Return tt
      /\ nitems v = 2
      /\ lookup_key v (Some (text "b")) = Return None
      /\ lookup_key v (Some (text "a"))
         = Return (Some (bytea ["001"; "002"; "003"]%byte))
      /\ lookup_key v (Some (text "c")) = Return (Some (bytea ["009"%byte]))).
Proof.
  split; [reflexivity|]. split; [vm_compute; reflexivity|].
  split; [vm_compute; reflexivity|]. split.
  - apply add_key_full.
    + concrete_le.
    + intros (i & Hi & Hs). change (0 <= i < 3) in Hi.
      assert (Hc : i = 0 \/ i = 1 \/ i = 2) by lia.
      destruct Hc as [Hc|[Hc|Hc]]; subst i; vm_compute in Hs; discriminate.
    + concrete_le.
  - vm_compute. repeat split.
Qed.

(** The scenario of the duplicate: the second [add_key('dup')] ends in
    [DuplicateIdentifier] and [lookup_key('dup')] still returns the first
    key. *)
Theorem scenario_duplicate :
  let v1 := fst (add_key fresh_vault (Some (text "dup")) (Some ["001"%byte])
                   None) in
  let r2 := add_key v1 (Some (text "dup")) (Some ["002"%byte]) None in
  snd r2 = Raise DuplicateIdentifier
  /\ nitems (fst r2) = nitems v1
  /\ lookup_key (fst r2) (Some (text "dup"))
     = Return (Some (bytea ["001"%byte])).
Proof. vm_compute. repeat split. Qed.

(** ** What an add_key call can do *)

(** A call either ends in an error and returns the segment, or passes
    every check and stores the record at index [nitems]. *)
Lemma add_key_result (v : VaultInfoData) (id key comment : option (list byte)) :
  (exists e, add_key v id key comment = (v, Raise e))
  \/ (exists i k,
        id = Some i /\ key = Some k
        /\ passes_size_checks i k comment
        /\ ~ present v i
        /\ nitems v < maxitems v
        /\ add_key v id key comment
           = ({| lock := lock v; maxitems := maxitems v;
                 nitems := nitems v + 1;
                 items := added_items (items v) (nitems v) i k comment |},
              Return tt)).
Proof.
  destruct id as [i|]; [|left; eexists; reflexivity].
  destruct key as [k|]; [|left; eexists; reflexivity].
  unfold add_key.
  destruct (Z.leb_spec MAX_ID_LENGTH (Z.of_nat (strlen i)));
    [left; eexists; reflexivity|].
  destruct (match comment with
            | Some c => MAX_COMMENT_LENGTH <=? Z.of_nat (strlen c)
            | None => false
            end) eqn:Ec; [left; eexists; reflexivity|].
  destruct (Z.leb_spec MAX_KEY_LENGTH (Z.of_nat (length k)));
    [left; eexists; reflexivity|].
  destruct (find_item v i) as [j|] eqn:F; simpl.
  - left. rewrite andb_false_r. eexists; reflexivity.
  - destruct (Z.leb_spec (maxitems v) (nitems v)); simpl;
      [left; eexists; reflexivity|].
    right. exists i, k. split; [reflexivity|]. split; [reflexivity|].
    split; [|split; [|split; [assumption | reflexivity]]].
    + split; [assumption|]. split; [assumption|].
      destruct comment; [apply Z.leb_gt; exact Ec | exact I].
    + intros (j & Hj & Hs). unfold find_item in F.
      apply (scan_items_none_inv _ _ _ _ F j); [lia | exact Hs].
Qed.

(** A byte outside the three copies of [add_key] is not written. *)
Lemma added_items_other (m : mem) (n : Z) (id key : list byte)
    (comment : option (list byte)) (x : Z) :
  ~ (item_id n <= x < item_id n + Z.of_nat (strlen id)) ->
  ~ (item_key n <= x < item_key n + (VARHDRSZ + Z.of_nat (length key))) ->
  match comment with
  | Some c => ~ (item_comment n <= x < item_comment n + Z.of_nat (strlen c))
  | None => True
  end ->
  added_items m n id key comment x = m x.
Proof.
  intros Hi Hk Hc. unfold added_items.
  destruct comment as [c|].
  - rewrite (memcpy_buf_other _ (item_comment n)) by exact Hc.
    rewrite (memcpy_buf_other _ (item_key n)) by exact Hk.
    apply memcpy_buf_other. exact Hi.
  - rewrite (memcpy_buf_other _ (item_key n)) by exact Hk.
    apply memcpy_buf_other. exact Hi.
Qed.

(** [add_key] writes nothing below the record it stores. *)
Lemma added_items_below (m : mem) (n : Z) (id key : list byte)
    (comment : option (list byte)) (x : Z) :
  x < item_addr n -> added_items m n id key comment x = m x.
Proof.
  intro Hx. apply added_items_other; [layout; lia | layout; lia |].
  destruct comment; [layout; lia | exact I].
Qed.

(** The bytes of the varlena go to the start of the [key] field. *)
Lemma added_items_at_key (m : mem) (n : Z) (id key : list byte)
    (comment : option (list byte)) (j : Z) :
  passes_size_checks id key comment ->
  0 <= j < VARHDRSZ + Z.of_nat (length key) ->
  added_items m n id key comment (item_key n + j)
  = nth (Z.to_nat j) (bytea key) x00.
Proof.
  intros (Hid & Hkey & Hc) Hj. unfold added_items.
  assert (E : memcpy_buf
                (memcpy_buf m (item_id n) id (Z.of_nat (strlen id)))
                (item_key n) (bytea key)
                (VARHDRSZ + Z.of_nat (length key)) (item_key n + j)
              = nth (Z.to_nat j) (bytea key) x00).
  { rewrite memcpy_buf_inside by lia. f_equal. lia. }
  destruct comment as [c|].
  - rewrite (memcpy_buf_other _ (item_comment n)) by (layout; lia). exact E.
  - exact E.
Qed.

Lemma VARSIZE_ANY_ext (m m' : mem) (p q : Z) :
  (forall k, 0 <= k < 4 -> m' (p + k) = m (q + k)) ->
  VARSIZE_ANY m' p = VARSIZE_ANY m q.
Proof.
  intro H. unfold VARSIZE_ANY, le32.
  pose proof (H 0 ltac:(lia)) as H0. rewrite !Z.add_0_r in H0.
  rewrite H0, (H 1), (H 2), (H 3) by lia. reflexivity.
Qed.

Lemma VARSIZE_ANY_added (m : mem) (n : Z) (id key : list byte)
    (comment : option (list byte)) :
  passes_size_checks id key comment ->
  VARSIZE_ANY (added_items m n id key comment) (item_key n)
  = VARHDRSZ + Z.of_nat (length key).
Proof.
  intro Hp. apply VARSIZE_ANY_bytea.
  - destruct Hp as (_ & Hk & _). layout. lia.
  - intros j Hj.
    rewrite (added_items_at_key m n id key comment (Z.of_nat j) Hp)
      by (layout; lia).
    now rewrite Nat2Z.id.
Qed.

(** ** The invariant of the reachable segments *)

(** After [delete_key] record [i] holds the bytes of record [n], every
    other record its own. *)
Lemma delete_record_bytes (m : mem) (i n j b : Z) :
  0 <= b < sizeof_VaultItemData ->
  memcpy_mem m (item_addr i) (item_addr n) sizeof_VaultItemData
    (item_addr j + b)
  = m (item_addr (if Z.eq_dec j i then n else j) + b).
Proof.
  intro Hb. unfold memcpy_mem.
  destruct (Z.eq_dec j i) as [->|Hne].
  - assert (R : in_range (item_addr i) sizeof_VaultItemData (item_addr i + b)
                = true) by (apply in_range_true; lia).
    rewrite R. f_equal. lia.
  - assert (R : in_range (item_addr i) sizeof_VaultItemData (item_addr j + b)
                = false) by (apply in_range_false; layout; lia).
    rewrite R. reflexivity.
Qed.

Lemma capacity_fits (size off : Z) :
  0 <= off <= size ->
  0 <= (size - off) / sizeof_VaultItemData
  /\ (size - off) / sizeof_VaultItemData * sizeof_VaultItemData
     <= items_bytes size off.
Proof.
  intro H. unfold items_bytes. split.
  - apply Z.div_pos; [lia | reflexivity].
  - rewrite Z.mul_comm. apply Z.mul_div_le. reflexivity.
Qed.

Lemma bytea_split (data : list byte) :
  bytea data = bytea_header (length data) ++ data.
Proof. unfold bytea_header, bytea. rewrite repeat_length. reflexivity. Qed.

Lemma bytea_header_length (len : nat) : length (bytea_header len) = 4%nat.
Proof. reflexivity. Qed.

Lemma bytea_header_nth (data : list byte) (j : nat) :
  (j < 4)%nat ->
  nth j (bytea data) x00 = nth j (bytea_header (length data)) x00.
Proof.
  intro Hj. rewrite bytea_split. apply app_nth1.
  rewrite bytea_header_length. exact Hj.
Qed.

Lemma mem_read_length (n : nat) :
  forall m p, length (mem_read m p n) = n.
Proof. induction n as [|n IH]; intros m p; simpl; [reflexivity | now rewrite IH]. Qed.

Lemma mem_read_app (n1 n2 : nat) :
  forall m p,
    mem_read m p (n1 + n2)
    = mem_read m p n1 ++ mem_read m (p + Z.of_nat n1) n2.
Proof.
  induction n1 as [|n1 IH]; intros m p.
  - simpl. now rewrite Z.add_0_r.
  - cbn [Nat.add mem_read app]. rewrite IH. do 3 f_equal. lia.
Qed.

(** [VARSIZE_ANY] of the header for [len] data bytes. *)
Lemma VARSIZE_ANY_header (m : mem) (p : Z) (len : nat) :
  Z.of_nat len < MAX_KEY_LENGTH ->
  mem_read m p 4 = bytea_header len ->
  VARSIZE_ANY m p = VARHDRSZ + Z.of_nat len.
Proof.
  intros Hlen Hh.
  rewrite <- (repeat_length x00 len) at 1.
  apply VARSIZE_ANY_bytea.
  - rewrite repeat_length. layout. lia.
  - intros j Hj. rewrite (mem_read_at _ _ _ _ j Hh Hj).
    rewrite bytea_header_nth by exact Hj. now rewrite repeat_length.
Qed.

Lemma startup_well_formed (size off : Z) (seg : VaultInfoData) (new_lock : Z) :
  0 <= off <= size -> size < 2 ^ 31 ->
  well_formed size off (pgvault_shmem_startup size off seg false new_lock).
Proof.
  intros Hoff Hint.
  pose proof (startup_maxitems size off seg new_lock Hoff Hint) as Hm.
  destruct (capacity_fits size off Hoff) as [Hc0 Hfit].
  split; [exact Hm|]. rewrite Hm.
  split; [simpl; lia|]. split.
  - intros i Hi. simpl.
    split; apply memset0_zero; layout; lia.
  - intros i Hi. simpl in Hi. lia.
Qed.

Lemma add_key_well_formed (size off : Z) (v : VaultInfoData)
    (id key comment : option (list byte)) :
  well_formed size off v ->
  well_formed size off (fst (add_key v id key comment)).
Proof.
  intros Hw.
  destruct (add_key_result v id key comment)
    as [[e ->]|(i & k & -> & -> & Hp & Hno & Hroom & ->)]; [exact Hw|].
  destruct Hw as (Hm & Hn & Hz & Hk).
  unfold well_formed. cbn [fst nitems maxitems items lock].
  split; [exact Hm|]. split; [lia|]. split.
  - intros j Hj. destruct (Hz j Hj) as [Hz1 Hz2].
    destruct Hp as (Hid & Hkey & Hc).
    split.
    + rewrite added_items_other; [exact Hz1 | layout; lia | layout; lia |].
      destruct comment; [layout; lia | exact I].
    + rewrite added_items_other; [exact Hz2 | layout; lia | layout; lia |].
      destruct comment; [layout; lia | exact I].
  - intros j Hj. destruct (Z.eq_dec j (nitems v)) as [->|Hne].
    + exists (length k). split; [destruct Hp as (_ & Hkey & _); exact Hkey|].
      apply mem_read_nth; [reflexivity|]. intros t Ht.
      rewrite (added_items_at_key _ _ _ _ _ (Z.of_nat t) Hp) by (layout; lia).
      rewrite Nat2Z.id. apply bytea_header_nth. exact Ht.
    + destruct (Hk j ltac:(lia)) as (len & Hlen & Hh).
      exists len. split; [exact Hlen|]. rewrite <- Hh.
      apply mem_read_ext. intros x Hx. apply added_items_below.
      layout. lia.
Qed.

Lemma delete_key_well_formed (size off : Z) (v : VaultInfoData)
    (id : option (list byte)) :
  well_formed size off v ->
  well_formed size off (fst (delete_key v id)).
Proof.
  intros Hw. destruct id as [id|]; [|exact Hw].
  destruct (find_item v id) as [i|] eqn:E.
  - rewrite (delete_key_found _ _ _ E). simpl fst.
    destruct Hw as (Hm & Hn & Hz & Hk).
    apply find_item_some in E. destruct E as [Hi _].
    unfold well_formed. cbn [nitems maxitems items lock].
    split; [exact Hm|]. split; [lia|]. split.
    + intros j Hj.
      assert (Hs : 0 <= (if Z.eq_dec j i then nitems v - 1 else j)
                   < maxitems v) by (destruct (Z.eq_dec j i); lia).
      destruct (Hz _ Hs) as [Hz1 Hz2]. split.
      * replace (item_id j + (MAX_ID_LENGTH - 1))
          with (item_addr j + (MAX_ID_LENGTH - 1)) by reflexivity.
        rewrite delete_record_bytes by (layout; lia). exact Hz1.
      * replace (item_comment j + (MAX_COMMENT_LENGTH - 1))
          with (item_addr j + (MAX_ID_LENGTH + (MAX_COMMENT_LENGTH - 1)))
          by (layout; lia).
        rewrite delete_record_bytes by (layout; lia).
        etransitivity; [|exact Hz2]. f_equal. layout. lia.
    + intros j Hj.
      destruct (Hk (if Z.eq_dec j i then nitems v - 1 else j))
        as (len & Hlen & Hh); [destruct (Z.eq_dec j i); lia|].
      exists len. split; [exact Hlen|]. rewrite <- Hh.
      apply mem_read_shift. intros t Ht.
      replace (item_key j + t)
        with (item_addr j + (MAX_ID_LENGTH + MAX_COMMENT_LENGTH + t))
        by (layout; lia).
      rewrite delete_record_bytes by (layout; lia).
      f_equal. layout. lia.
  - unfold delete_key. rewrite E. exact Hw.
Qed.

Lemma delete_keys_well_formed (size off : Z) (v : VaultInfoData) :
  0 <= off <= size ->
  well_formed size off v ->
  well_formed size off (fst (delete_keys size off v)).
Proof.
  intros Hoff (Hm & Hn & Hz & Hk).
  destruct (capacity_fits size off Hoff) as [Hc0 Hfit].
  unfold well_formed. simpl.
  split; [exact Hm|]. split; [lia|]. split.
  - intros i Hi. rewrite Hm in Hi.
    split; apply memset0_zero; layout; lia.
  - intros i Hi. lia.
Qed.

Lemma reachable_well_formed (size off : Z) (v : VaultInfoData) :
  0 <= off <= size -> size < 2 ^ 31 ->
  reachable size off v -> well_formed size off v.
Proof.
  intros Hoff Hint Hr. induction Hr.
  - apply startup_well_formed; assumption.
  - apply add_key_well_formed. assumption.
  - apply delete_key_well_formed. assumption.
  - apply delete_keys_well_formed; assumption.
Qed.

(** ** What holds of every reachable segment *)

Lemma strlen_nul_free (s : list byte) :
  Forall (fun b => b <> x00) s -> strlen s = length s.
Proof.
  induction 1 as [|b s Hb _ IH]; simpl; [reflexivity|].
  destruct (is_nul b) eqn:E; [apply is_nul_true in E; contradiction|].
  now rewrite IH.
Qed.

Lemma cstr_nul_free_id (s : list byte) :
  Forall (fun b => b <> x00) s -> cstr s = s.
Proof.
  intro H. unfold cstr. rewrite (strlen_nul_free s H). apply firstn_all.
Qed.

(** A C string read gives the bytes before the first NUL. *)
Lemma mem_cstring_spec (fuel : nat) :
  forall m p s,
    mem_cstring fuel m p = Some s ->
    mem_read m p (S (length s)) = s ++ [x00]
    /\ Forall (fun b => b <> x00) s.
Proof.
  induction fuel as [|f IH]; intros m p s H; simpl in H; [discriminate|].
  destruct (is_nul (m p)) eqn:E.
  - injection H as <-. apply is_nul_true in E. simpl. rewrite E. now split.
  - destruct (mem_cstring f m (p + 1)) as [s'|] eqn:E'; [|discriminate].
    simpl in H. injection H as <-.
    destruct (IH _ _ _ E') as [Hr Hn]. split.
    + change (m p :: mem_read m (p + 1) (S (length s'))
              = m p :: (s' ++ [x00])).
      now rewrite Hr.
    + constructor; [|exact Hn]. intro Hz. apply is_nul_true in Hz. congruence.
Qed.

Lemma mem_cstring_bound (fuel : nat) :
  forall m p q s,
    mem_cstring fuel m p = Some s -> p <= q -> m q = x00 ->
    Z.of_nat (length s) <= q - p.
Proof.
  induction fuel as [|f IH]; intros m p q s H Hpq Hq; simpl in H;
    [discriminate|].
  destruct (is_nul (m p)) eqn:E.
  - injection H as <-. simpl. lia.
  - assert (p <> q).
    { intros ->. apply is_nul_true in Hq. congruence. }
    destruct (mem_cstring f m (p + 1)) as [s'|] eqn:E'; [|discriminate].
    simpl in H. injection H as <-.
    pose proof (IH _ _ q _ E' ltac:(lia) Hq). simpl length. lia.
Qed.

Lemma mem_cstring_stored_id (fuel : nat) (m : mem) (i : Z) (s : list byte) :
  mem_cstring fuel m (item_id i) = Some s -> stored_id m i s.
Proof.
  intro H. destruct (mem_cstring_spec _ _ _ _ H) as [Hr Hn].
  unfold stored_id. now rewrite (strlen_nul_free s Hn), (cstr_nul_free_id s Hn).
Qed.

Lemma mem_cstring_stored_comment (fuel : nat) (m : mem) (i : Z)
    (c : list byte) :
  mem_cstring fuel m (item_comment i) = Some c -> stored_comment m i c.
Proof. intro H. exact (proj1 (mem_cstring_spec _ _ _ _ H)). Qed.

(** In a reachable segment [maxitems] is the capacity computed at
    start-up, [nitems] stays within it and the populated records lie in
    the segment, whatever calls were made. *)
Theorem reachable_count_bounds (size off : Z) (v : VaultInfoData) :
  0 <= off <= size -> size < 2 ^ 31 ->
  reachable size off v ->
  maxitems v = (size - off) / sizeof_VaultItemData
  /\ 0 <= nitems v <= maxitems v
  /\ item_addr (nitems v) <= size - off.
Proof.
  intros Hoff Hint Hr.
  destruct (reachable_well_formed _ _ _ Hoff Hint Hr) as (Hm & Hn & _).
  destruct (capacity_fits size off Hoff) as [_ Hfit].
  split; [exact Hm|]. split; [exact Hn|].
  unfold items_bytes in Hfit. rewrite <- Hm in Hfit. layout. nia.
Qed.

(** In a reachable segment the C string at the [id] field of every record
    of the array ends inside that field, and so does the one at the
    [comment] field: [strcmp] and [CStringGetTextDatum] never read past
    the field they are given. *)
Theorem reachable_strings_terminated (size off : Z) (v : VaultInfoData) (i : Z) :
  0 <= off <= size -> size < 2 ^ 31 ->
  reachable size off v ->
  0 <= i < maxitems v ->
  exists s c,
    mem_cstring (Z.to_nat MAX_ID_LENGTH) (items v) (item_id i) = Some s
    /\ mem_cstring (Z.to_nat MAX_COMMENT_LENGTH) (items v) (item_comment i)
       = Some c
    /\ stored_id (items v) i s
    /\ stored_comment (items v) i c
    /\ Z.of_nat (length s) < MAX_ID_LENGTH
    /\ Z.of_nat (length c) < MAX_COMMENT_LENGTH.
Proof.
  intros Hoff Hint Hr Hi.
  destruct (reachable_well_formed _ _ _ Hoff Hint Hr) as (_ & _ & Hz & _).
  destruct (Hz i Hi) as [Hz1 Hz2].
  destruct (mem_cstring_total (Z.to_nat MAX_ID_LENGTH) (items v) (item_id i)
              (item_id i + (MAX_ID_LENGTH - 1))) as [s Hs];
    [layout; lia | exact Hz1 |].
  destruct (mem_cstring_total (Z.to_nat MAX_COMMENT_LENGTH) (items v)
              (item_comment i) (item_comment i + (MAX_COMMENT_LENGTH - 1)))
    as [c Hc]; [layout; lia | exact Hz2 |].
  exists s, c. split; [exact Hs|]. split; [exact Hc|].
  split; [exact (mem_cstring_stored_id _ _ _ _ Hs)|].
  split; [exact (mem_cstring_stored_comment _ _ _ _ Hc)|].
  assert (B1 : item_id i <= item_id i + (MAX_ID_LENGTH - 1))
    by (layout; lia).
  assert (B2 : item_comment i <= item_comment i + (MAX_COMMENT_LENGTH - 1))
    by (layout; lia).
  pose proof (mem_cstring_bound _ _ _ _ _ Hs B1 Hz1).
  pose proof (mem_cstring_bound _ _ _ _ _ Hc B2 Hz2).
  layout. lia.
Qed.

(** In a reachable segment [lookup_key] returns NULL or a well-formed
    varlena: a four-byte header followed by as many data bytes as the
    header says, fewer than [MAX_KEY_LENGTH]. *)
Theorem reachable_lookup_bytea (size off : Z) (v : VaultInfoData)
    (id : list byte) (r : list byte) :
  0 <= off <= size -> size < 2 ^ 31 ->
  reachable size off v ->
  lookup_key v (Some id) = Return (Some r) ->
  exists data, r = bytea data /\ Z.of_nat (length data) < MAX_KEY_LENGTH.
Proof.
  intros Hoff Hint Hr Hl.
  destruct (reachable_well_formed _ _ _ Hoff Hint Hr) as (_ & _ & _ & Hk).
  unfold lookup_key in Hl.
  destruct (find_item v id) as [i|] eqn:E; [|discriminate].
  injection Hl as <-.
  apply find_item_some in E. destruct E as [Hi _].
  destruct (Hk i Hi) as (len & Hlen & Hh).
  rewrite (VARSIZE_ANY_header _ _ len Hlen Hh).
  replace (Z.to_nat (VARHDRSZ + Z.of_nat len)) with (4 + len)%nat
    by (layout; lia).
  rewrite mem_read_app, Hh.
  exists (mem_read (items v) (item_key i + Z.of_nat 4) len).
  rewrite bytea_split, mem_read_length. split; [reflexivity | exact Hlen].
Qed.

Lemma list_keys_calls_nth (fuel : nat) (c : VaultInfoData) (n : nat) :
  forall k0 j, (j < n)%nat ->
    nth_error (list_keys_calls fuel c k0 n) j
    = Some (list_keys_tuple fuel c (k0 + Z.of_nat j)).
Proof.
  induction n as [|n IH]; intros k0 j Hj; [lia|].
  destruct j as [|j]; simpl.
  - now rewrite Z.add_0_r.
  - rewrite IH by lia. do 2 f_equal. lia.
Qed.

(** The copy has the [id] and [comment] fields of the records that lie in
    the segment as the segment has them. *)
Lemma vault_copy_fields (size off : Z) (b : bool) (v : VaultInfoData)
    (k a : Z) :
  0 <= k -> item_id k <= a < item_key k -> a < items_bytes size off ->
  items (vault_copy size off b v) a = items v a.
Proof.
  intros Hk Ha Hin. rewrite vault_copy_elsewhere.
  - assert (E : in_range 0 (items_bytes size off) a = true)
      by (apply in_range_true; layout; lia).
    now rewrite E.
  - intros i _. apply (fields_before_key k). exact Ha.
Qed.

(** In a reachable segment [list_keys] shows, for every populated record,
    the identifier and the comment the record holds, each within its
    length bound, and a NULL key; and [lookup_key] finds a key under every
    identifier it shows. *)
Theorem reachable_list_keys_rows (size off : Z) (v : VaultInfoData)
    (fuel : nat) (k : Z) :
  0 <= off <= size -> size < 2 ^ 31 ->
  reachable size off v ->
  (255 <= fuel)%nat ->
  0 <= k < nitems v ->
  exists t,
    nth_error (list_keys size off fuel v) (Z.to_nat k) = Some (Some t)
    /\ tup_key t = None
    /\ stored_id (items v) k (tup_id t)
    /\ stored_comment (items v) k (tup_comment t)
    /\ Z.of_nat (length (tup_id t)) < MAX_ID_LENGTH
    /\ Z.of_nat (length (tup_comment t)) < MAX_COMMENT_LENGTH
    /\ exists r, lookup_key v (Some (tup_id t)) = Return (Some r).
Proof.
  intros Hoff Hint Hr Hf Hk.
  destruct (reachable_well_formed _ _ _ Hoff Hint Hr) as (Hm & Hn & Hz & _).
  destruct (capacity_fits size off Hoff) as [_ Hfit]. rewrite <- Hm in Hfit.
  assert (Hsmall : maxitems v <= size - off).
  { rewrite Hm. apply Z.div_le_upper_bound; [reflexivity|]. layout. lia. }
  destruct (Hz k ltac:(lia)) as [Hz1 Hz2].
  unfold list_keys. rewrite Z.mod_small by lia.
  rewrite list_keys_calls_nth by lia. rewrite Z.add_0_l, Z2Nat.id by lia.
  unfold list_keys_tuple.
  set (c := items (vault_copy size off true v)).
  assert (Hsame : forall a, item_id k <= a < item_key k -> c a = items v a).
  { intros a Ha. apply (vault_copy_fields _ _ _ _ k); [lia | exact Ha |].
    layout. nia. }
  rewrite (mem_cstring_agree fuel (items v) c (item_id k)
             (item_id k + (MAX_ID_LENGTH - 1)));
    [| layout; lia | exact Hz1 | intros a Ha; apply Hsame; layout; lia].
  rewrite (mem_cstring_agree fuel (items v) c (item_comment k)
             (item_comment k + (MAX_COMMENT_LENGTH - 1)));
    [| layout; lia | exact Hz2 | intros a Ha; apply Hsame; layout; lia].
  destruct (mem_cstring_total fuel (items v) (item_id k)
              (item_id k + (MAX_ID_LENGTH - 1))) as [s Hs];
    [layout; lia | exact Hz1 |].
  destruct (mem_cstring_total fuel (items v) (item_comment k)
              (item_comment k + (MAX_COMMENT_LENGTH - 1))) as [d Hd];
    [layout; lia | exact Hz2 |].
  rewrite Hs, Hd. eexists. split; [reflexivity|]. cbn [tup_id tup_key tup_comment].
  pose proof (mem_cstring_stored_id _ _ _ _ Hs) as Hsi.
  split; [reflexivity|]. split; [exact Hsi|].
  split; [exact (mem_cstring_stored_comment _ _ _ _ Hd)|].
  assert (B1 : item_id k <= item_id k + (MAX_ID_LENGTH - 1))
    by (layout; lia).
  assert (B2 : item_comment k <= item_comment k + (MAX_COMMENT_LENGTH - 1))
    by (layout; lia).
  pose proof (mem_cstring_bound _ _ _ _ _ Hs B1 Hz1).
  pose proof (mem_cstring_bound _ _ _ _ _ Hd B2 Hz2).
  split; [layout; lia|]. split; [layout; lia|].
  destruct (find_item_present v s) as [j Hj].
  { exists k. split; [exact Hk | exact Hsi]. }
  unfold lookup_key. rewrite Hj. eexists. reflexivity.
Qed.

(** ** What a call leaves of the other records *)

Lemma find_item_some_first (v : VaultInfoData) (id : list byte) (i : Z) :
  find_item v id = Some i ->
  0 <= i < nitems v
  /\ stored_id (items v) i id
  /\ forall j, 0 <= j < i -> ~ stored_id (items v) j id.
Proof.
  unfold find_item. intro H. apply scan_items_some in H.
  destruct H as (Hr & Hs & Hb). split; [lia|]. split; assumption.
Qed.

(** [add_key] leaves what [lookup_key] returns for an identifier that was
    stored before the call, when the stored varlena is within its [key]
    field: whether the call is accepted or not, and whatever its key. *)
Theorem add_key_keeps_others (v : VaultInfoData)
    (id key comment : option (list byte)) (id' : list byte) (i : Z) :
  ids_terminated v ->
  find_item v id' = Some i ->
  VARSIZE_ANY (items v) (item_key i) <= MAX_KEY_LENGTH ->
  lookup_key (fst (add_key v id key comment)) (Some id')
  = lookup_key v (Some id').
Proof.
  intros Ht F Hsz.
  destruct (add_key_result v id key comment)
    as [[e ->]|(x & k & -> & -> & Hp & Hno & Hroom & ->)]; [reflexivity|].
  cbn [fst].
  destruct (find_item_some_first _ _ _ F) as (Hi & Hst & Hbefore).
  destruct (Ht i Hi) as (t & Ht0 & Hz).
  pose proof (stored_id_short _ _ _ _ Hst (proj1 Ht0) Hz) as Hlen.
  set (m' := added_items (items v) (nitems v) x k comment).
  assert (Hsame : forall j, 0 <= j <= i ->
            mem_read m' (item_id j) (S (strlen id'))
            = mem_read (items v) (item_id j) (S (strlen id'))).
  { intros j Hj. apply mem_read_ext. intros a Ha.
    apply added_items_below. layout. lia. }
  assert (F' : find_item {| lock := lock v; maxitems := maxitems v;
                            nitems := nitems v + 1; items := m' |} id'
               = Some i).
  { apply find_item_first; cbn [nitems items].
    - lia.
    - unfold stored_id. rewrite Hsame by lia. exact Hst.
    - intros j Hj Hs. apply (Hbefore j Hj).
      unfold stored_id in *. now rewrite <- Hsame by lia. }
  unfold lookup_key. rewrite F, F'. cbn [items].
  rewrite (VARSIZE_ANY_ext (items v) m' (item_key i) (item_key i))
    by (intros a Ha; apply added_items_below; layout; lia).
  do 2 f_equal. apply mem_read_ext. intros a Ha.
  apply added_items_below.
  layout. lia.
Qed.

(** After [delete_key] found its identifier at [i], the records below the
    new [nitems] hold the identifiers of old records: record [i] that of
    the old last record, every other its own. *)
Lemma delete_stored_id_terminated (v : VaultInfoData) (i j : Z)
    (s : list byte) :
  ids_terminated v ->
  0 <= i < nitems v -> 0 <= j < nitems v - 1 ->
  stored_id (memcpy_mem (items v) (item_addr i) (item_addr (nitems v - 1))
               sizeof_VaultItemData) j s
  <-> stored_id (items v) (if Z.eq_dec j i then nitems v - 1 else j) s.
Proof.
  intros Ht Hi Hj.
  set (n := nitems v - 1). set (sj := if Z.eq_dec j i then n else j).
  assert (Hn : n = nitems v - 1) by reflexivity.
  assert (Hsj : 0 <= sj < nitems v)
    by (unfold sj; destruct (Z.eq_dec j i); lia).
  destruct (Ht sj Hsj) as (t & Ht0 & Hz).
  assert (Hz' : memcpy_mem (items v) (item_addr i) (item_addr n)
                  sizeof_VaultItemData (item_id j + t) = x00).
  { unfold item_id. rewrite delete_record_bytes by (layout; lia). exact Hz. }
  split; intro Hs.
  - apply delete_stored_id in Hs; [exact Hs|].
    pose proof (stored_id_short _ _ _ _ Hs (proj1 Ht0) Hz'). layout. lia.
  - apply delete_stored_id; [|exact Hs].
    pose proof (stored_id_short _ _ _ _ Hs (proj1 Ht0) Hz). layout. lia.
Qed.

(** [delete_key] leaves what [lookup_key] returns for every other
    identifier, when the identifiers are distinct and terminated and the
    stored varlena is within its [key] field: the last record may move,
    its key does not change. *)
Theorem delete_key_keeps_others (v : VaultInfoData) (id id' : list byte) :
  ids_unique v ->
  ids_terminated v ->
  cstr id' <> cstr id ->
  (forall i, find_item v id' = Some i ->
             VARSIZE_ANY (items v) (item_key i) <= MAX_KEY_LENGTH) ->
  lookup_key (fst (delete_key v (Some id))) (Some id')
  = lookup_key v (Some id').
Proof.
  intros Hu Ht Hne Hsz.
  destruct (find_item v id) as [i|] eqn:E;
    [|unfold delete_key; rewrite E; reflexivity].
  rewrite (delete_key_found _ _ _ E). cbn [fst].
  destruct (find_item_some_first _ _ _ E) as (Hi & Hst & _).
  set (n := nitems v - 1).
  assert (Hn : n = nitems v - 1) by reflexivity.
  set (m' := memcpy_mem (items v) (item_addr i) (item_addr n)
               sizeof_VaultItemData).
  set (v' := {| lock := lock v; maxitems := maxitems v; nitems := n;
                items := m' |}).
  assert (Hiff : forall j s, 0 <= j < n ->
            (stored_id m' j s
             <-> stored_id (items v) (if Z.eq_dec j i then n else j) s)).
  { intros j s Hj. apply delete_stored_id_terminated; assumption. }
  destruct (find_item v id') as [i'|] eqn:E'.
  - destruct (find_item_some_first _ _ _ E') as (Hi' & Hst' & _).
    assert (Hii : i' <> i).
    { intros ->. apply Hne. exact (stored_id_unique _ _ _ _ Hst' Hst). }
    set (j' := if Z.eq_dec i' n then i else i').
    assert (Hj' : 0 <= j' < n) by (unfold j'; destruct (Z.eq_dec i' n); lia).
    assert (Hs' : (if Z.eq_dec j' i then n else j') = i').
    { unfold j'. destruct (Z.eq_dec i' n) as [->|].
      - destruct (Z.eq_dec i i); [reflexivity | contradiction].
      - destruct (Z.eq_dec i' i); [contradiction | reflexivity]. }
    assert (F' : find_item v' id' = Some j').
    { apply find_item_first; cbn [nitems items].
      - exact Hj'.
      - apply Hiff; [exact Hj'|]. rewrite Hs'. exact Hst'.
      - intros j Hj Hs. apply Hiff in Hs; [|lia].
        assert (Heq : (if Z.eq_dec j i then n else j) = i').
        { apply (Hu _ _ id'); [destruct (Z.eq_dec j i); lia | lia
                               | exact Hs | exact Hst']. }
        unfold j' in Hj. destruct (Z.eq_dec j i) as [->|];
          destruct (Z.eq_dec i' n); lia. }
    unfold lookup_key. rewrite F', E'. unfold v'. cbn [items].
    assert (Hrec : forall b, 0 <= b < sizeof_VaultItemData ->
              m' (item_addr j' + b) = items v (item_addr i' + b)).
    { intros b Hb. unfold m'. rewrite delete_record_bytes by exact Hb.
      now rewrite Hs'. }
    assert (Hv : VARSIZE_ANY m' (item_key j')
                 = VARSIZE_ANY (items v) (item_key i')).
    { apply VARSIZE_ANY_ext. intros t Ht'.
      replace (item_key j' + t)
        with (item_addr j' + (MAX_ID_LENGTH + MAX_COMMENT_LENGTH + t))
        by (layout; lia).
      rewrite Hrec by (layout; lia). f_equal. layout. lia. }
    rewrite Hv. do 2 f_equal. apply mem_read_shift. intros t Ht'.
    specialize (Hsz i' eq_refl).
    replace (item_key j' + t)
      with (item_addr j' + (MAX_ID_LENGTH + MAX_COMMENT_LENGTH + t))
      by (layout; lia).
    rewrite Hrec by (layout; lia). f_equal. layout. lia.
  - unfold lookup_key. rewrite E'. rewrite find_item_absent; [reflexivity|].
    intros (j & Hj & Hs). unfold v' in Hj, Hs. cbn [nitems items] in Hj, Hs.
    apply Hiff in Hs; [|exact Hj].
    destruct (find_item_present v id') as [x Hx]; [|congruence].
    exists (if Z.eq_dec j i then n else j).
    split; [destruct (Z.eq_dec j i); lia | exact Hs].
Qed.

(** ** A vault filled from empty: what lookup_key and list_keys return *)

Lemma cstr_Forall (s : list byte) : Forall (fun b => b <> x00) (cstr s).
Proof.
  unfold cstr. induction s as [|c s IH]; simpl; [constructor|].
  destruct (is_nul c) eqn:E; [constructor|]. simpl.
  constructor; [|exact IH]. intro Hz. apply is_nul_true in Hz. congruence.
Qed.

Lemma mem_cstring_of_read (s : list byte) :
  forall fuel m p,
    mem_read m p (S (length s)) = s ++ [x00] ->
    Forall (fun b => b <> x00) s ->
    (length s < fuel)%nat ->
    mem_cstring fuel m p = Some s.
Proof.
  induction s as [|b s IH]; intros fuel m p Hr Hn Hf;
    (destruct fuel as [|f]; [simpl in Hf; lia|]); simpl in Hr |- *.
  - injection Hr as Hr. rewrite Hr. reflexivity.
  - injection Hr as Hb Hr. inversion Hn as [|? ? Hb0 Hn']; subst.
    destruct (is_nul (m p)) eqn:E.
    + apply is_nul_true in E. congruence.
    + rewrite (IH f m (p + 1)); [reflexivity | | exact Hn' | simpl in Hf; lia].
      exact Hr.
Qed.

Lemma startup_clean_empty (size off : Z) (seg : VaultInfoData) (new_lock : Z) :
  0 <= off <= size -> size < 2 ^ 31 ->
  clean_empty (items_bytes size off)
    (pgvault_shmem_startup size off seg false new_lock).
Proof.
  intros Hoff Hint.
  destruct (startup_slots_fit size off seg new_lock Hoff Hint) as [H0 Hfit].
  split; [reflexivity|]. split; [exact H0|]. split; [exact Hfit|].
  intros a Ha. simpl. apply memset0_zero. lia.
Qed.

Lemma clean_empty_laid_out (bytes : Z) (v : VaultInfoData) :
  clean_empty bytes v -> laid_out v [] bytes.
Proof.
  intros (Hn & _ & _ & Hz). split; [rewrite Hn; reflexivity|]. split.
  - intros k a H. destruct k; discriminate.
  - intros x Hx. apply Hz. rewrite Hn in Hx. layout. lia.
Qed.

Lemma laid_out_not_present (v : VaultInfoData) (l : list add_args)
    (bytes : Z) (id : list byte) :
  laid_out v l bytes -> ~ In (cstr id) (map arg_cstr l) -> ~ present v id.
Proof.
  intros (Hn & Hrec & _) Hnew (i & Hi & Hst).
  destruct (nth_error l (Z.to_nat i)) as [b|] eqn:E.
  - destruct (Hrec _ _ E) as (_ & Hb & _).
    rewrite Z2Nat.id in Hb by lia.
    apply Hnew. rewrite (stored_id_unique _ _ _ _ Hst Hb).
    change (In (arg_cstr b) (map arg_cstr l)).
    apply in_map. exact (nth_error_In _ _ E).
  - apply nth_error_None in E. lia.
Qed.

Lemma added_items_stored_comment (m : mem) (n : Z) (a : add_args) :
  valid_args a ->
  (forall x, item_addr n <= x < item_addr (n + 1) -> m x = x00) ->
  stored_comment (added_items m n (arg_id a) (arg_key a) (arg_comment a))
    n (arg_comment_cstr a).
Proof.
  intros Hv Hz. pose proof Hv as (Hid & Hkey & Hc).
  rewrite item_addr_succ in Hz.
  unfold stored_comment, arg_comment_cstr, added_items.
  destruct (arg_comment a) as [c|].
  - apply mem_read_nth; [rewrite length_app; simpl; lia|].
    intros j Hj. rewrite cstr_length in Hj.
    destruct (Nat.eq_dec j (strlen c)) as [->|Hne].
    + replace (nth (strlen c) (cstr c ++ [x00]) x00) with x00
        by (rewrite <- (cstr_length c) at 1; now rewrite nth_middle).
      rewrite !memcpy_buf_other by (layout; lia).
      apply Hz. layout. lia.
    + rewrite memcpy_buf_inside by lia.
      rewrite app_nth1 by (rewrite cstr_length; lia).
      unfold cstr. rewrite nth_firstn.
      replace (j <? strlen c)%nat with true by (symmetry; apply Nat.ltb_lt; lia).
      f_equal. lia.
  - apply mem_read_nth; [reflexivity|].
    intros j Hj. assert (j = 0%nat) as -> by (simpl in Hj; lia).
    rewrite !memcpy_buf_other by (layout; lia).
    simpl nth. apply Hz. layout. lia.
Qed.

Lemma added_items_stored_key (m : mem) (n : Z) (a : add_args) :
  valid_args a ->
  stored_key (added_items m n (arg_id a) (arg_key a) (arg_comment a))
    n (arg_key a).
Proof.
  intro Hv. unfold stored_key. apply mem_read_nth; [reflexivity|].
  intros j Hj. apply added_items_key; assumption.
Qed.

Lemma add_key_lays_one (v : VaultInfoData) (l : list add_args) (bytes : Z)
    (a : add_args) :
  laid_out v l bytes ->
  valid_args a ->
  ~ In (arg_cstr a) (map arg_cstr l) ->
  nitems v < maxitems v ->
  maxitems v * sizeof_VaultItemData <= bytes ->
  exists v',
    add_key v (Some (arg_id a)) (Some (arg_key a)) (arg_comment a)
    = (v', Return tt)
    /\ maxitems v' = maxitems v
    /\ laid_out v' (l ++ [a]) bytes.
Proof.
  intros Hl Hv Hnew Hroom Hfit.
  pose proof (laid_out_not_present _ _ _ _ Hl Hnew) as Hno.
  destruct Hl as (Hn & Hrec & Hclean).
  rewrite (add_key_accepts _ _ _ _ (valid_passes_size_checks _ Hv) Hno Hroom).
  eexists. split; [reflexivity|]. split; [reflexivity|].
  unfold laid_out. cbn [nitems items].
  set (m' := added_items (items v) (nitems v) (arg_id a) (arg_key a)
               (arg_comment a)).
  assert (Hrecz : forall x, item_addr (nitems v) <= x < item_addr (nitems v + 1)
                            -> items v x = x00).
  { intros x Hx. apply Hclean. layout. nia. }
  split; [rewrite length_app; simpl; lia|]. split.
  - intros k b Hk.
    destruct (Nat.lt_ge_cases k (length l)) as [Hlt|Hge].
    + rewrite nth_error_app1 in Hk by exact Hlt.
      destruct (Hrec _ _ Hk) as (Hvb & Hsi & Hsc & Hsk).
      pose proof Hvb as (Hbid & Hbkey & Hbc).
      assert (Hout : forall n0 p, item_addr (Z.of_nat k) <= p ->
                p + Z.of_nat n0 <= item_addr (Z.of_nat k + 1) ->
                mem_read m' p n0 = mem_read (items v) p n0).
      { intros n0 p Hp1 Hp2. apply mem_read_ext. intros x Hx.
        apply added_items_below. layout. lia. }
      split; [exact Hvb|]. unfold stored_id, stored_comment, stored_key in *.
      split; [|split].
      * rewrite Hout; [exact Hsi | layout; lia | layout; lia].
      * rewrite Hout; [exact Hsc | layout; lia |].
        unfold arg_comment_cstr. destruct (arg_comment b) as [c|].
        -- rewrite cstr_length. layout. lia.
        -- simpl. layout. lia.
      * rewrite Hout; [exact Hsk | layout; lia |].
        pose proof (bytea_length (arg_key b)). layout. lia.
    + rewrite nth_error_app2 in Hk by exact Hge.
      destruct (k - length l)%nat as [|d] eqn:Ed;
        [|destruct d; discriminate].
      injection Hk as <-.
      assert (Z.of_nat k = nitems v) as -> by lia.
      split; [exact Hv|]. split; [|split].
      * apply added_items_stored_id; [exact Hv|].
        apply Hrecz. destruct Hv as (Hid & _). layout. lia.
      * apply added_items_stored_comment; assumption.
      * apply added_items_stored_key. exact Hv.
  - intros x Hx. unfold m'. rewrite added_items_outside; [|exact Hv|layout; lia].
    apply Hclean. layout. lia.
Qed.

Lemma add_keys_lay_out (l2 : list add_args) :
  forall v l1 bytes,
    laid_out v l1 bytes ->
    Forall valid_args l2 ->
    NoDup (map arg_cstr (l1 ++ l2)) ->
    nitems v + Z.of_nat (length l2) <= maxitems v ->
    maxitems v * sizeof_VaultItemData <= bytes ->
    exists v',
      add_keys v l2 = (v', repeat (Return tt) (length l2))
      /\ maxitems v' = maxitems v
      /\ laid_out v' (l1 ++ l2) bytes.
Proof.
  induction l2 as [|a l2 IH]; intros v l1 bytes Hl Hv Hnd Hroom Hfit.
  - exists v. rewrite app_nil_r. split; [reflexivity|]. split; [reflexivity|].
    exact Hl.
  - inversion Hv as [|? ? Hva Hvl]; subst.
    rewrite map_app in Hnd. simpl in Hnd.
    pose proof (NoDup_remove_2 _ _ _ Hnd) as Hna.
    destruct (add_key_lays_one v l1 bytes a Hl Hva) as (v1 & E1 & Hm1 & Hl1).
    { intro Hin. apply Hna. apply in_or_app. now left. }
    { simpl length in Hroom. lia. }
    { exact Hfit. }
    destruct (IH v1 (l1 ++ [a]) bytes Hl1 Hvl) as (v2 & E2 & Hm2 & Hl2).
    { rewrite <- app_assoc, map_app. exact Hnd. }
    { destruct Hl1 as (Hn1 & _). destruct Hl as (Hn & _).
      rewrite Hn1, length_app, Hm1. simpl length in *. lia. }
    { lia. }
    exists v2. rewrite add_keys_cons, E1. cbn [fst snd]. rewrite E2.
    cbn [fst snd]. split; [reflexivity|]. split; [lia|].
    rewrite <- app_assoc in Hl2. exact Hl2.
Qed.

Lemma laid_out_lookup (v : VaultInfoData) (l : list add_args) (bytes : Z)
    (k : nat) (a : add_args) :
  laid_out v l bytes ->
  NoDup (map arg_cstr l) ->
  nth_error l k = Some a ->
  lookup_key v (Some (arg_id a)) = Return (Some (bytea (arg_key a))).
Proof.
  intros (Hn & Hrec & _) Hnd Hk.
  destruct (Hrec _ _ Hk) as (Hv & Hsi & _ & Hsk).
  assert (Hklt : (k < length l)%nat) by (apply nth_error_Some; congruence).
  assert (F : find_item v (arg_id a) = Some (Z.of_nat k)).
  { apply find_item_first; [lia | exact Hsi |].
    intros j Hj Hs.
    destruct (nth_error l (Z.to_nat j)) as [b|] eqn:Eb.
    - destruct (Hrec _ _ Eb) as (_ & Hsb & _).
      rewrite Z2Nat.id in Hsb by lia.
      pose proof (stored_id_unique _ _ _ _ Hs Hsb) as Hc.
      assert (Z.to_nat j = k); [|lia].
      apply (proj1 (NoDup_nth_error (map arg_cstr l)) Hnd).
      + rewrite length_map. apply nth_error_Some. congruence.
      + rewrite (map_nth_error _ _ _ Eb), (map_nth_error _ _ _ Hk).
        unfold arg_cstr. now rewrite Hc.
    - apply nth_error_None in Eb. lia. }
  unfold lookup_key. rewrite F. unfold stored_key in Hsk.
  pose proof (bytea_length (arg_key a)) as Hlen.
  assert (Hsz : VARSIZE_ANY (items v) (item_key (Z.of_nat k))
                = VARHDRSZ + Z.of_nat (length (arg_key a))).
  { apply VARSIZE_ANY_bytea.
    - destruct Hv as (_ & Hkey & _). layout. lia.
    - intros j Hj. apply (mem_read_at _ _ _ _ j Hsk). layout. lia. }
  rewrite Hsz, <- Hlen, Nat2Z.id, Hsk. reflexivity.
Qed.

Lemma laid_out_ids_unique (v : VaultInfoData) (l : list add_args)
    (bytes : Z) :
  laid_out v l bytes -> NoDup (map arg_cstr l) -> ids_unique v.
Proof.
  intros (Hn & Hrec & _) Hnd i j id Hi Hj Hsi Hsj.
  destruct (nth_error l (Z.to_nat i)) as [a|] eqn:Ea;
    [|apply nth_error_None in Ea; lia].
  destruct (nth_error l (Z.to_nat j)) as [b|] eqn:Eb;
    [|apply nth_error_None in Eb; lia].
  destruct (Hrec _ _ Ea) as (_ & Ha & _).
  destruct (Hrec _ _ Eb) as (_ & Hb & _).
  rewrite Z2Nat.id in Ha, Hb by lia.
  pose proof (stored_id_unique _ _ _ _ Hsi Ha) as Hca.
  pose proof (stored_id_unique _ _ _ _ Hsj Hb) as Hcb.
  assert (Z.to_nat i = Z.to_nat j); [|lia].
  apply (proj1 (NoDup_nth_error (map arg_cstr l)) Hnd).
  - rewrite length_map. apply nth_error_Some. congruence.
  - rewrite (map_nth_error _ _ _ Ea), (map_nth_error _ _ _ Eb).
    unfold arg_cstr. congruence.
Qed.

(** From an empty clean vault, after [add_key] calls with valid arguments
    and pairwise distinct identifiers, no more than [maxitems], every
    call has returned normally and [lookup_key] returns, for each of the
    identifiers, the varlena of the key added with it. *)
Theorem add_keys_then_lookup_all (bytes : Z) (v0 : VaultInfoData)
    (l : list add_args) :
  clean_empty bytes v0 ->
  Forall valid_args l ->
  NoDup (map arg_cstr l) ->
  Z.of_nat (length l) <= maxitems v0 ->
  snd (add_keys v0 l) = repeat (Return tt) (length l)
  /\ nitems (fst (add_keys v0 l)) = Z.of_nat (length l)
  /\ ids_unique (fst (add_keys v0 l))
  /\ forall a, In a l ->
       lookup_key (fst (add_keys v0 l)) (Some (arg_id a))
       = Return (Some (bytea (arg_key a))).
Proof.
  intros Hc Hv Hnd Hlen.
  pose proof Hc as (Hn0 & Hm0 & Hfit & _).
  destruct (add_keys_lay_out l v0 [] bytes (clean_empty_laid_out _ _ Hc) Hv Hnd)
    as (v & E & Hm & Hl); [lia | exact Hfit |].
  rewrite E. cbn [fst snd]. split; [reflexivity|].
  split; [exact (proj1 Hl)|].
  split; [exact (laid_out_ids_unique _ _ _ Hl Hnd)|].
  intros a Ha. destruct (In_nth_error _ _ Ha) as [k Hk].
  exact (laid_out_lookup _ _ _ _ _ Hl Hnd Hk).
Qed.

Lemma list_keys_calls_map (fuel : nat) (c : VaultInfoData)
    (l : list add_args) :
  forall k0,
    (forall j a, nth_error l j = Some a ->
       list_keys_tuple fuel c (k0 + Z.of_nat j) = Some (row_of_args a)) ->
    list_keys_calls fuel c k0 (length l)
    = map (fun a => Some (row_of_args a)) l.
Proof.
  induction l as [|a l IH]; intros k0 H; simpl; [reflexivity|].
  rewrite <- (H 0%nat a eq_refl), Z.add_0_r. f_equal.
  apply IH. intros j b Hj. rewrite <- (H (S j) b Hj). f_equal. lia.
Qed.

(** From an empty clean vault, after [add_key] calls with valid arguments
    and pairwise distinct identifiers, no more than [maxitems],
    [list_keys] returns one row per call, in the order of the calls: the
    identifier, a NULL key, and the comment (empty when none was given). *)
Theorem add_keys_then_list_keys (size off : Z) (v0 : VaultInfoData)
    (l : list add_args) (fuel : nat) :
  clean_empty (items_bytes size off) v0 ->
  Forall valid_args l ->
  NoDup (map arg_cstr l) ->
  Z.of_nat (length l) <= maxitems v0 ->
  maxitems v0 < 2 ^ 32 ->
  (255 <= fuel)%nat ->
  list_keys size off fuel (fst (add_keys v0 l))
  = map (fun a => Some (row_of_args a)) l.
Proof.
  intros Hc Hv Hnd Hlen Hint Hf.
  pose proof Hc as (Hn0 & Hm0 & Hfit & _).
  destruct (add_keys_lay_out l v0 [] (items_bytes size off)
              (clean_empty_laid_out _ _ Hc) Hv Hnd)
    as (v & E & Hm & Hl); [lia | exact Hfit |].
  rewrite E. cbn [fst]. cbn [app] in Hl.
  destruct Hl as (Hn & Hrec & _).
  unfold list_keys. rewrite Hn, Z.mod_small, Nat2Z.id by lia.
  apply list_keys_calls_map. intros j a Hj. rewrite Z.add_0_l.
  destruct (Hrec _ _ Hj) as (Hva & Hsi & Hsc & _).
  assert (Hjlt : (j < length l)%nat) by (apply nth_error_Some; congruence).
  set (c := items (vault_copy size off true v)).
  assert (Hsame : forall n0 p, item_id (Z.of_nat j) <= p ->
            p + Z.of_nat n0 <= item_key (Z.of_nat j) ->
            mem_read c p n0 = mem_read (items v) p n0).
  { intros n0 p Hp1 Hp2. apply mem_read_ext. intros x Hx.
    apply (vault_copy_fields _ _ _ _ (Z.of_nat j)); [lia | lia |].
    layout. nia. }
  pose proof Hva as (Hid & _ & Hcm).
  unfold list_keys_tuple, row_of_args, arg_cstr. fold c.
  rewrite (mem_cstring_of_read (cstr (arg_id a)) fuel c);
    [| | apply cstr_Forall | rewrite cstr_length; layout; lia].
  2:{ rewrite Hsame; [| lia | rewrite cstr_length; layout; lia].
      rewrite cstr_length. exact Hsi. }
  assert (Hcl : Z.of_nat (length (arg_comment_cstr a)) < MAX_COMMENT_LENGTH).
  { unfold arg_comment_cstr. destruct (arg_comment a);
      [rewrite cstr_length; lia | simpl; layout; lia]. }
  rewrite (mem_cstring_of_read (arg_comment_cstr a) fuel c);
    [reflexivity | | | layout; lia].
  - rewrite Hsame; [exact Hsc | layout; lia | layout; lia].
  - unfold arg_comment_cstr. destruct (arg_comment a);
      [apply cstr_Forall | constructor].
Qed.

(** [delete_keys] on a reachable segment leaves what start-up left inside
    the segment: an empty vault of the same capacity whose item array is
    zero up to the end of the segment.  It writes nothing at or past that
    end: bytes that a key overrunning the last record put there stay. *)
Theorem delete_keys_clean_empty (size off : Z) (v : VaultInfoData) :
  0 <= off <= size -> size < 2 ^ 31 ->
  reachable size off v ->
  clean_empty (items_bytes size off) (fst (delete_keys size off v))
  /\ maxitems (fst (delete_keys size off v))
     = (size - off) / sizeof_VaultItemData
  /\ (forall a, items_bytes size off <= a ->
        items (fst (delete_keys size off v)) a = items v a).
Proof.
  intros Hoff Hint Hr.
  destruct (reachable_well_formed _ _ _ Hoff Hint Hr) as (Hm & _).
  destruct (capacity_fits size off Hoff) as [H0 Hfit].
  split; [|split; [exact Hm|]].
  - unfold clean_empty. cbn [fst delete_keys nitems maxitems items].
    rewrite Hm. split; [reflexivity|]. split; [exact H0|].
    split; [exact Hfit|].
    intros a Ha. apply memset0_zero. lia.
  - intros a Ha. cbn [fst delete_keys items]. apply memset0_other. lia.
Qed.

(** ** Keys longer than the field, add then delete, the configured size *)

(** Every key that passes the size check with more than
    [MAX_KEY_LENGTH - VARHDRSZ] data bytes is stored with its last bytes
    in the [id] field of the next record: data byte [j], for [j] from
    [MAX_KEY_LENGTH - VARHDRSZ] on, is byte [j - (MAX_KEY_LENGTH -
    VARHDRSZ)] of that field. *)
Theorem add_key_overrun (v : VaultInfoData) (id key : list byte)
    (comment : option (list byte)) (j : Z) :
  passes_size_checks id key comment ->
  ~ present v id ->
  nitems v < maxitems v ->
  MAX_KEY_LENGTH - VARHDRSZ <= j < Z.of_nat (length key) ->
  snd (add_key v (Some id) (Some key) comment) = Return tt
  /\ items (fst (add_key v (Some id) (Some key) comment))
       (item_id (nitems v + 1) + (j - (MAX_KEY_LENGTH - VARHDRSZ)))
     = nth (Z.to_nat j) key x00.
Proof.
  intros Hp Hno Hroom Hj.
  rewrite (add_key_accepts _ _ _ _ Hp Hno Hroom). cbn [fst snd items].
  split; [reflexivity|].
  replace (item_id (nitems v + 1) + (j - (MAX_KEY_LENGTH - VARHDRSZ)))
    with (item_key (nitems v) + (VARHDRSZ + j)) by (layout; lia).
  rewrite added_items_at_key by (try exact Hp; layout; lia).
  replace (Z.to_nat (VARHDRSZ + j)) with (4 + Z.to_nat j)%nat
    by (layout; lia).
  reflexivity.
Qed.

(** On a record that is clean where the identifier ends, the record
    [add_key] stores is found under its identifier at index [nitems]. *)
Lemma add_key_clean_found (v : VaultInfoData) (a : add_args) :
  valid_args a ->
  ~ present v (arg_id a) ->
  0 <= nitems v ->
  items v (item_id (nitems v) + Z.of_nat (strlen (arg_id a))) = x00 ->
  find_item
    {| lock := lock v; maxitems := maxitems v; nitems := nitems v + 1;
       items := added_items (items v) (nitems v) (arg_id a) (arg_key a)
                  (arg_comment a) |}
    (arg_id a)
  = Some (nitems v).
Proof.
  intros Hv Hno Hn Hz. apply find_item_first; cbn [nitems items].
  - lia.
  - apply added_items_stored_id; assumption.
  - intros j Hj Hst. apply Hno. exists j. split; [lia|].
    unfold stored_id in *. rewrite <- Hst. symmetry. apply mem_read_ext.
    intros x Hx. apply added_items_below.
    destruct Hv as (Hid & _). layout. lia.
Qed.

(** [add_key] with valid arguments into a record that is clean where the
    identifier ends, then [delete_key] of the same identifier: both
    return normally, [nitems] is what it was, no byte outside the record
    that was used has changed, and [lookup_key] finds nothing under the
    identifier. *)
Theorem add_then_delete_restores (v : VaultInfoData) (a : add_args) :
  valid_args a ->
  ~ present v (arg_id a) ->
  0 <= nitems v < maxitems v ->
  items v (item_id (nitems v) + Z.of_nat (strlen (arg_id a))) = x00 ->
  let r1 := add_key v (Some (arg_id a)) (Some (arg_key a)) (arg_comment a) in
  let r2 := delete_key (fst r1) (Some (arg_id a)) in
  snd r1 = Return tt
  /\ snd r2 = Return tt
  /\ nitems (fst r2) = nitems v
  /\ maxitems (fst r2) = maxitems v
  /\ (forall x, ~ (item_addr (nitems v) <= x < item_addr (nitems v + 1)) ->
        items (fst r2) x = items v x)
  /\ lookup_key (fst r2) (Some (arg_id a)) = Return None.
Proof.
  intros Hv Hno Hn Hz r1 r2. unfold r2, r1.
  rewrite (add_key_accepts _ _ _ _ (valid_passes_size_checks _ Hv) Hno
             (proj2 Hn)).
  cbn [fst snd].
  rewrite (delete_key_found _ _ _
             (add_key_clean_found v a Hv Hno (proj1 Hn) Hz)).
  cbn [fst snd nitems maxitems items].
  split; [reflexivity|]. split; [reflexivity|]. split; [lia|].
  split; [reflexivity|].
  assert (Hout : forall x,
            ~ (item_addr (nitems v) <= x < item_addr (nitems v + 1)) ->
            memcpy_mem
              (added_items (items v) (nitems v) (arg_id a) (arg_key a)
                 (arg_comment a))
              (item_addr (nitems v)) (item_addr (nitems v + 1 - 1))
              sizeof_VaultItemData x
            = items v x).
  { intros x Hx. unfold memcpy_mem.
    assert (R : in_range (item_addr (nitems v)) sizeof_VaultItemData x = false)
      by (apply in_range_false; rewrite item_addr_succ in Hx; exact Hx).
    rewrite R. apply added_items_outside; assumption. }
  split; [exact Hout|].
  unfold lookup_key. rewrite find_item_absent; [reflexivity|].
  intros (j & Hj & Hst). cbn [nitems items] in Hj, Hst.
  apply Hno. exists j. split; [lia|].
  unfold stored_id in *. rewrite <- Hst. symmetry. apply mem_read_ext.
  intros x Hx. apply Hout.
  assert (Hs : Z.of_nat (strlen (arg_id a)) < MAX_ID_LENGTH).
  { destruct Hv as (Hid & _). layout. lia. }
  layout. lia.
Qed.

(** For every value [pg_vault.max_size] admits, and a header of at most a
    kilobyte, the capacity computed at start-up is the floor of the
    quotient, at least 780 records, and the array of that many records
    fits the segment. *)
Theorem guc_capacity (size off : Z) (seg : VaultInfoData) (new_lock : Z) :
  guc_admits size ->
  0 <= off <= 1024 ->
  let v := pgvault_shmem_startup size off seg false new_lock in
  maxitems v = (size - off) / sizeof_VaultItemData
  /\ 780 <= maxitems v
  /\ maxitems v * sizeof_VaultItemData <= size - off
  /\ nitems v = 0.
Proof.
  intros [Hmin Hmax] Hoff v.
  unfold max_size_min in Hmin. unfold INT_MAX in Hmax.
  assert (Hoff' : 0 <= off <= size) by lia.
  assert (Hint : size < 2 ^ 31) by lia.
  pose proof (startup_maxitems size off seg new_lock Hoff' Hint) as Hm.
  destruct (startup_slots_fit size off seg new_lock Hoff' Hint) as [_ Hfit].
  fold v in Hm, Hfit. split; [exact Hm|]. split; [|split; [exact Hfit|reflexivity]].
  rewrite Hm. apply Z.div_le_lower_bound; [reflexivity|]. layout. lia.
Qed.

(** ** Where add_key writes, and what a dirty record does to it *)

(** [add_key] writes only in the record at [nitems] and in the three
    bytes after it, whatever its arguments; when the varlena of the key
    fits the [key] field it writes in that record only. *)
Theorem add_key_write_frame (v : VaultInfoData)
    (id key comment : option (list byte)) (x : Z) :
  (~ (item_addr (nitems v) <= x < item_addr (nitems v + 1) + 3) ->
   items (fst (add_key v id key comment)) x = items v x)
  /\ (forall k, key = Some k ->
        VARHDRSZ + Z.of_nat (length k) <= MAX_KEY_LENGTH ->
        ~ (item_addr (nitems v) <= x < item_addr (nitems v + 1)) ->
        items (fst (add_key v id key comment)) x = items v x).
Proof.
  destruct (add_key_result v id key comment)
    as [[e ->]|(i & k & -> & -> & Hp & Hno & Hroom & ->)];
    [split; reflexivity|].
  cbn [fst items]. destruct Hp as (Hid & Hkey & Hc). split.
  - intro Hx. apply added_items_other; [layout; lia | layout; lia |].
    destruct comment; [layout; lia | exact I].
  - intros k' [= <-] Hfit Hx.
    apply added_items_other; [layout; lia | layout; lia |].
    destruct comment; [layout; lia | exact I].
Qed.

(** When the free record holds a non-zero byte where the identifier ends,
    an accepted [add_key] stores a longer identifier than it was given:
    the call returns normally and [lookup_key] finds nothing under the
    identifier just added. *)
Theorem add_key_dirty_lookup_misses (v : VaultInfoData) (id key : list byte)
    (comment : option (list byte)) :
  passes_size_checks id key comment ->
  ~ present v id ->
  0 <= nitems v < maxitems v ->
  items v (item_id (nitems v) + Z.of_nat (strlen id)) <> x00 ->
  snd (add_key v (Some id) (Some key) comment) = Return tt
  /\ nitems (fst (add_key v (Some id) (Some key) comment)) = nitems v + 1
  /\ lookup_key (fst (add_key v (Some id) (Some key) comment)) (Some id)
     = Return None.
Proof.
  intros Hp Hno Hn Hz.
  rewrite (add_key_accepts _ _ _ _ Hp Hno (proj2 Hn)). cbn [fst snd nitems].
  split; [reflexivity|]. split; [reflexivity|].
  unfold lookup_key. rewrite find_item_absent; [reflexivity|].
  intros (j & Hj & Hst). cbn [nitems items] in Hj, Hst.
  pose proof Hp as (Hid & Hkey & Hc).
  destruct (Z.eq_dec j (nitems v)) as [->|Hne].
  - apply Hz. unfold stored_id in Hst.
    pose proof (mem_read_at _ _ _ _ (strlen id) Hst ltac:(lia)) as Hb.
    rewrite <- (cstr_length id) in Hb at 2. rewrite nth_middle in Hb.
    rewrite <- Hb. symmetry.
    apply added_items_other; [layout; lia | layout; lia |].
    destruct comment; [layout; lia | exact I].
  - apply Hno. exists j. split; [lia|].
    unfold stored_id in *. rewrite <- Hst. symmetry. apply mem_read_ext.
    intros x Hx. apply added_items_below. layout. lia.
Qed.

(** ** The rows of list_keys across add_key and delete_key *)

(** A C string read is the same at two places that hold the same bytes up
    to a NUL. *)
Lemma mem_cstring_shift (fuel : nat) :
  forall m m' p p' q,
    0 <= q -> m (p + q) = x00 ->
    (forall a, 0 <= a <= q -> m' (p' + a) = m (p + a)) ->
    mem_cstring fuel m' p' = mem_cstring fuel m p.
Proof.
  induction fuel as [|f IH]; intros m m' p p' q Hq Hz Hag; simpl;
    [reflexivity|].
  pose proof (Hag 0 ltac:(lia)) as H0. rewrite !Z.add_0_r in H0. rewrite H0.
  destruct (is_nul (m p)) eqn:E; [reflexivity|].
  assert (q <> 0).
  { intros ->. rewrite Z.add_0_r in Hz. apply is_nul_true in Hz. congruence. }
  f_equal. apply (IH _ _ _ _ (q - 1)); [lia | |].
  - rewrite <- Hz. f_equal. lia.
  - intros a Ha. replace (p' + 1 + a) with (p' + (a + 1)) by lia.
    replace (p + 1 + a) with (p + (a + 1)) by lia. apply Hag. lia.
Qed.

(** A C string read starts with the non-zero bytes it finds. *)
Lemma mem_cstring_prefix (m : mem) :
  forall s fuel p r,
    Forall (fun b => b <> x00) s ->
    mem_read m p (length s) = s ->
    mem_cstring fuel m p = Some r ->
    exists tail, r = s ++ tail.
Proof.
  induction s as [|b s IH]; intros fuel p r Hn Hr H; [exists r; reflexivity|].
  destruct fuel as [|f]; [discriminate|].
  inversion Hn as [|? ? Hb Hs]; subst.
  simpl in Hr. injection Hr as Hb0 Hr. simpl in H. rewrite Hb0 in H.
  destruct (is_nul b) eqn:E; [apply is_nul_true in E; contradiction|].
  destruct (mem_cstring f m (p + 1)) as [r'|] eqn:E'; [|discriminate].
  simpl in H. injection H as <-.
  destruct (IH f (p + 1) r' Hs Hr E') as [tail ->].
  exists tail. reflexivity.
Qed.

Lemma cstr_nth (s : list byte) (j : nat) :
  (j < strlen s)%nat -> nth j (cstr s) x00 = nth j s x00.
Proof.
  intro Hj. unfold cstr. rewrite nth_firstn.
  now rewrite (proj2 (Nat.ltb_lt _ _) Hj).
Qed.

(** The identifier [add_key] copies is in the record, whatever the key. *)
Lemma added_items_cstr (m : mem) (n : Z) (id key : list byte)
    (comment : option (list byte)) :
  passes_size_checks id key comment ->
  mem_read (added_items m n id key comment) (item_id n) (length (cstr id))
  = cstr id.
Proof.
  intros (Hid & Hkey & Hc). apply mem_read_nth; [reflexivity|].
  intros j Hj. rewrite cstr_length in Hj. rewrite (cstr_nth _ _ Hj).
  unfold added_items.
  assert (E : memcpy_buf m (item_id n) id (Z.of_nat (strlen id))
                (item_id n + Z.of_nat j) = nth j id x00).
  { rewrite memcpy_buf_inside by lia. f_equal. lia. }
  destruct comment as [c|].
  - rewrite (memcpy_buf_other _ (item_comment n)) by (layout; lia).
    rewrite (memcpy_buf_other _ (item_key n)) by (layout; lia). exact E.
  - rewrite (memcpy_buf_other _ (item_key n)) by (layout; lia). exact E.
Qed.

Lemma well_formed_count (size off : Z) (v : VaultInfoData) :
  0 <= off <= size -> size < 2 ^ 31 ->
  well_formed size off v ->
  0 <= nitems v < 2 ^ 32
  /\ maxitems v * sizeof_VaultItemData <= size - off.
Proof.
  intros Hoff Hint (Hm & Hn & _).
  destruct (capacity_fits size off Hoff) as [Hc0 Hfit].
  rewrite <- Hm in Hfit, Hc0. unfold items_bytes in Hfit.
  change (2 ^ 31) with 2147483648 in Hint.
  change (2 ^ 32) with 4294967296.
  split; [|exact Hfit]. revert Hfit. layout. lia.
Qed.

(** In a well-formed segment the row of a populated record is read from
    the record's own [id] and [comment] fields. *)
Lemma list_keys_row (size off : Z) (fuel : nat) (v : VaultInfoData) (k : Z) :
  0 <= off <= size -> size < 2 ^ 31 ->
  well_formed size off v ->
  0 <= k < nitems v ->
  nth_error (list_keys size off fuel v) (Z.to_nat k)
  = Some (list_keys_tuple fuel v k).
Proof.
  intros Hoff Hint Hw Hk.
  destruct (well_formed_count _ _ _ Hoff Hint Hw) as [Hb Hfit].
  destruct Hw as (Hm & Hn & Hz & _).
  unfold list_keys. rewrite Z.mod_small by exact Hb.
  rewrite list_keys_calls_nth by lia.
  rewrite Z.add_0_l, Z2Nat.id by lia. f_equal.
  destruct (Hz k ltac:(lia)) as [Hz1 Hz2].
  unfold list_keys_tuple.
  rewrite (mem_cstring_agree fuel (items v) _ (item_id k)
             (item_id k + (MAX_ID_LENGTH - 1)));
    [| layout; lia | exact Hz1
     | intros a Ha; apply (vault_copy_fields _ _ _ _ k);
       [lia | layout; lia | unfold items_bytes; layout; lia]].
  rewrite (mem_cstring_agree fuel (items v) _ (item_comment k)
             (item_comment k + (MAX_COMMENT_LENGTH - 1)));
    [reflexivity | layout; lia | exact Hz2 |].
  intros a Ha. apply (vault_copy_fields _ _ _ _ k);
    [lia | layout; lia | unfold items_bytes; layout; lia].
Qed.

Lemma list_keys_length (size off : Z) (fuel : nat) (v : VaultInfoData) :
  0 <= off <= size -> size < 2 ^ 31 ->
  well_formed size off v ->
  length (list_keys size off fuel v) = Z.to_nat (nitems v).
Proof.
  intros Hoff Hint Hw.
  destruct (well_formed_count _ _ _ Hoff Hint Hw) as [Hb _].
  unfold list_keys. rewrite Z.mod_small by exact Hb.
  apply list_keys_calls_length.
Qed.

(** [delete_key] of an identifier found in record [i] of a reachable
    segment takes one row from [list_keys]: the row of the last populated
    record moves to position [i], the other rows stay where they were. *)
Theorem delete_key_list_keys (size off : Z) (fuel : nat) (v : VaultInfoData)
    (id : list byte) (i : Z) :
  0 <= off <= size -> size < 2 ^ 31 ->
  reachable size off v ->
  find_item v id = Some i ->
  let rows := list_keys size off fuel v in
  let rows' := list_keys size off fuel (fst (delete_key v (Some id))) in
  S (length rows') = length rows
  /\ forall k, 0 <= k < nitems v - 1 ->
       nth_error rows' (Z.to_nat k)
       = nth_error rows (Z.to_nat (if Z.eq_dec k i then nitems v - 1 else k)).
Proof.
  intros Hoff Hint Hr Hf rows rows'. subst rows rows'.
  pose proof (reachable_well_formed _ _ _ Hoff Hint Hr) as Hw.
  pose proof (reachable_well_formed _ _ _ Hoff Hint
                (reach_delete_key _ _ _ (Some id) Hr)) as Hw'.
  destruct (find_item_some _ _ _ Hf) as [Hi _].
  rewrite !list_keys_length by assumption.
  revert Hw'. rewrite (delete_key_found _ _ _ Hf). cbn [fst]. intro Hw'.
  split; [cbn [nitems]; lia|].
  intros k Hk. set (src := if Z.eq_dec k i then nitems v - 1 else k).
  assert (Hsrc : 0 <= src < nitems v) by (unfold src; destruct (Z.eq_dec k i); lia).
  rewrite (list_keys_row _ _ _ _ k Hoff Hint Hw') by (cbn [nitems]; lia).
  rewrite (list_keys_row _ _ _ _ src Hoff Hint Hw) by exact Hsrc.
  f_equal. destruct Hw as (_ & Hn & Hz & _).
  destruct (Hz src ltac:(lia)) as [Hz1 Hz2].
  unfold list_keys_tuple. cbn [items].
  rewrite (mem_cstring_shift fuel (items v) _ (item_id src) (item_id k)
             (MAX_ID_LENGTH - 1)); [| layout; lia | exact Hz1 |].
  - rewrite (mem_cstring_shift fuel (items v) _ (item_comment src)
               (item_comment k) (MAX_COMMENT_LENGTH - 1));
      [reflexivity | layout; lia | exact Hz2 |].
    intros a Ha.
    replace (item_comment k + a) with (item_addr k + (MAX_ID_LENGTH + a))
      by (layout; lia).
    replace (item_comment src + a) with (item_addr src + (MAX_ID_LENGTH + a))
      by (layout; lia).
    apply delete_record_bytes. layout. lia.
  - intros a Ha.
    replace (item_id k + a) with (item_addr k + a) by (layout; lia).
    replace (item_id src + a) with (item_addr src + a) by (layout; lia).
    apply delete_record_bytes. layout. lia.
Qed.

(** On a reachable segment an [add_key] that returns normally appends one
    row to [list_keys] and leaves the rows before it; the new row has a
    NULL key and an identifier that starts with the one given, and when
    the comment argument is NULL its comment is the C string the free
    record held in its [comment] field.  A call that ends in an error
    leaves the rows. *)
Theorem add_key_list_keys (size off : Z) (fuel : nat) (v : VaultInfoData)
    (id key comment : option (list byte)) :
  0 <= off <= size -> size < 2 ^ 31 ->
  reachable size off v ->
  (255 <= fuel)%nat ->
  (snd (add_key v id key comment) = Return tt ->
   exists i0 t tail,
     id = Some i0
     /\ list_keys size off fuel (fst (add_key v id key comment))
        = list_keys size off fuel v ++ [Some t]
     /\ tup_id t = cstr i0 ++ tail
     /\ tup_key t = None
     /\ (comment = None ->
         mem_cstring fuel (items v) (item_comment (nitems v))
         = Some (tup_comment t)))
  /\ (snd (add_key v id key comment) <> Return tt ->
      list_keys size off fuel (fst (add_key v id key comment))
      = list_keys size off fuel v).
Proof.
  intros Hoff Hint Hr Hfuel.
  pose proof (reachable_well_formed _ _ _ Hoff Hint Hr) as Hw.
  pose proof (reachable_well_formed _ _ _ Hoff Hint
                (reach_add_key _ _ _ id key comment Hr)) as Hw'.
  revert Hw'.
  destruct (add_key_result v id key comment)
    as [[e ->]|(i0 & k0 & -> & -> & Hp & Hno & Hroom & ->)];
    cbn [fst snd]; intro Hw'.
  { split; [discriminate | reflexivity]. }
  split; [intros _ | intro H; contradiction].
  set (v' := {| lock := lock v; maxitems := maxitems v;
                nitems := nitems v + 1;
                items := added_items (items v) (nitems v) i0 k0 comment |})
    in *.
  pose proof Hw as (_ & Hn & Hz & _).
  pose proof Hw' as (_ & Hn' & Hz' & _).
  assert (Hnv : nitems v' = nitems v + 1) by reflexivity.
  assert (Hmv : maxitems v' = maxitems v) by reflexivity.
  destruct (Hz' (nitems v) ltac:(lia)) as [Hz1 Hz2].
  destruct (mem_cstring_total fuel (items v') (item_id (nitems v))
              (item_id (nitems v) + (MAX_ID_LENGTH - 1)))
    as [s Es]; [layout; lia | exact Hz1 |].
  destruct (mem_cstring_total fuel (items v') (item_comment (nitems v))
              (item_comment (nitems v) + (MAX_COMMENT_LENGTH - 1)))
    as [c Ec]; [layout; lia | exact Hz2 |].
  destruct (mem_cstring_prefix (items v') (cstr i0) fuel _ s
              (cstr_Forall i0) (added_items_cstr _ _ _ _ _ Hp) Es)
    as [tail Htail].
  exists i0, {| tup_id := s; tup_key := None; tup_comment := c |}, tail.
  split; [reflexivity|].
  split; [|split; [exact Htail | split; [reflexivity|]]].
  2:{ intros ->. cbn [tup_comment]. rewrite <- Ec. symmetry.
      destruct (Hz (nitems v) ltac:(lia)) as [_ Hy2].
      apply (mem_cstring_agree fuel (items v) (items v')
               (item_comment (nitems v))
               (item_comment (nitems v) + (MAX_COMMENT_LENGTH - 1)));
        [layout; lia | exact Hy2 |].
      intros a Ha. destruct Hp as (Hid & Hkey & _).
      apply added_items_other; [layout; lia | layout; lia | exact I]. }
  apply nth_error_ext. intro j.
  destruct (Nat.lt_trichotomy j (Z.to_nat (nitems v))) as [Hj|[Hj|Hj]].
  - rewrite nth_error_app1
      by (rewrite (list_keys_length _ _ _ _ Hoff Hint Hw); exact Hj).
    rewrite <- (Nat2Z.id j).
    rewrite (list_keys_row _ _ _ _ _ Hoff Hint Hw') by lia.
    rewrite (list_keys_row _ _ _ _ _ Hoff Hint Hw) by lia.
    f_equal. destruct (Hz (Z.of_nat j) ltac:(lia)) as [Hy1 Hy2].
    unfold list_keys_tuple.
    rewrite (mem_cstring_agree fuel (items v) (items v')
               (item_id (Z.of_nat j))
               (item_id (Z.of_nat j) + (MAX_ID_LENGTH - 1)));
      [| layout; lia | exact Hy1
       | intros a Ha; apply added_items_below; layout; lia].
    rewrite (mem_cstring_agree fuel (items v) (items v')
               (item_comment (Z.of_nat j))
               (item_comment (Z.of_nat j) + (MAX_COMMENT_LENGTH - 1)));
      [reflexivity | layout; lia | exact Hy2 |].
    intros a Ha. apply added_items_below. layout. lia.
  - subst j. rewrite nth_error_app2
      by (rewrite (list_keys_length _ _ _ _ Hoff Hint Hw); lia).
    rewrite (list_keys_length _ _ _ _ Hoff Hint Hw), Nat.sub_diag.
    rewrite (list_keys_row _ _ _ _ _ Hoff Hint Hw') by lia.
    unfold list_keys_tuple. rewrite Es, Ec. reflexivity.
  - rewrite (proj2 (nth_error_None _ _)), (proj2 (nth_error_None _ _));
      [reflexivity | |].
    + rewrite length_app, (list_keys_length _ _ _ _ Hoff Hint Hw). simpl. lia.
    + rewrite (list_keys_length _ _ _ _ Hoff Hint Hw'), Hnv. lia.
Qed.

(** ** Distinct identifiers *)

(** On a free record that is zero where the identifier ends, an accepted
    [add_key] stores the identifier it was given, whatever the key. *)
Lemma added_items_stored_clean (m : mem) (n : Z) (id key : list byte)
    (comment : option (list byte)) :
  passes_size_checks id key comment ->
  m (item_id n + Z.of_nat (strlen id)) = x00 ->
  stored_id (added_items m n id key comment) n id.
Proof.
  intros Hp Hz. unfold stored_id. apply mem_read_nth.
  - rewrite length_app, cstr_length. simpl. lia.
  - intros j Hj.
    destruct (Nat.eq_dec j (strlen id)) as [->|Hne].
    + replace (nth (strlen id) (cstr id ++ [x00]) x00) with x00
        by (rewrite <- (cstr_length id); now rewrite nth_middle).
      rewrite <- Hz. destruct Hp as (Hid & Hkey & Hc).
      apply added_items_other; [layout; lia | layout; lia |].
      destruct comment; [layout; lia | exact I].
    + assert (Hlt : (j < strlen id)%nat) by lia.
      rewrite app_nth1 by (rewrite cstr_length; exact Hlt).
      apply (mem_read_at _ _ _ _ j (added_items_cstr m n id key comment Hp)).
      rewrite cstr_length. exact Hlt.
Qed.

(** On a segment whose populated records have terminated, pairwise
    distinct identifiers, [delete_key] and [delete_keys] keep them
    pairwise distinct, and so does every [add_key] call, refused or
    accepted with any key the size check lets through, whose free record
    is zero where the identifier ends. *)
Theorem ids_unique_preserved (size off : Z) (v : VaultInfoData) :
  ids_unique v ->
  ids_terminated v ->
  (forall id, ids_unique (fst (delete_key v id)))
  /\ ids_unique (fst (delete_keys size off v))
  /\ (forall id key comment,
        items v (item_id (nitems v) + Z.of_nat (strlen id)) = x00 ->
        ids_unique (fst (add_key v (Some id) key comment))).
Proof.
  intros Hu Ht. split; [|split].
  - intros [id|]; [|exact Hu].
    destruct (find_item v id) as [i|] eqn:E.
    + rewrite (delete_key_found _ _ _ E). simpl fst.
      apply find_item_some in E. destruct E as [Hi _].
      assert (Hshort : forall j s, 0 <= j < nitems v ->
                stored_id (items v) j s ->
                Z.of_nat (strlen s) < sizeof_VaultItemData).
      { intros j s Hj Hs. destruct (Ht j Hj) as (k & Hk & Hz).
        pose proof (stored_id_short _ _ _ _ Hs (proj1 Hk) Hz). layout. lia. }
      intros a b s Ha Hb Hsa Hsb. simpl in Ha, Hb, Hsa, Hsb.
      assert (Hlen : Z.of_nat (strlen s) < sizeof_VaultItemData).
      { destruct (Ht a ltac:(lia)) as (k & Hk & Hz).
        destruct (Z.eq_dec a i) as [->|Hne].
        - destruct (Ht (nitems v - 1) ltac:(lia)) as (k' & Hk' & Hz').
          assert (Hz2 : memcpy_mem (items v) (item_addr i)
                          (item_addr (nitems v - 1)) sizeof_VaultItemData
                          (item_id i + k') = x00).
          { unfold memcpy_mem.
            assert (R : in_range (item_addr i) sizeof_VaultItemData
                          (item_id i + k') = true)
              by (apply in_range_true; layout; lia).
            rewrite R. rewrite <- Hz'. f_equal. layout. lia. }
          pose proof (stored_id_short _ _ _ _ Hsa (proj1 Hk') Hz2).
          layout. lia.
        - assert (Hz2 : memcpy_mem (items v) (item_addr i)
                          (item_addr (nitems v - 1)) sizeof_VaultItemData
                          (item_id a + k) = x00).
          { unfold memcpy_mem.
            assert (R : in_range (item_addr i) sizeof_VaultItemData
                          (item_id a + k) = false)
              by (apply in_range_false; layout; lia).
            rewrite R. exact Hz. }
          pose proof (stored_id_short _ _ _ _ Hsa (proj1 Hk) Hz2).
          layout. lia. }
      apply delete_stored_id in Hsa, Hsb; try exact Hlen.
      destruct (Z.eq_dec a i) as [->|Ha'], (Z.eq_dec b i) as [->|Hb'];
        try reflexivity.
      * exfalso. apply Hb'.
        assert (nitems v - 1 = b) by
          (apply (Hu _ _ s); [lia | lia | exact Hsa | exact Hsb]). lia.
      * exfalso. apply Ha'.
        assert (a = nitems v - 1) by
          (apply (Hu _ _ s); [lia | lia | exact Hsa | exact Hsb]). lia.
      * apply (Hu _ _ s); [lia | lia | exact Hsa | exact Hsb].
    + unfold delete_key. rewrite E. exact Hu.
  - intros a b s Ha. simpl in Ha. lia.
  - intros id key comment Hz.
    destruct (add_key_result v (Some id) key comment)
      as [[e ->]|(i0 & k & Hi0 & -> & Hp & Hno & Hroom & ->)]; [exact Hu|].
    injection Hi0 as Hi0. subst i0. cbn [fst].
    set (m' := added_items (items v) (nitems v) id k comment).
    assert (Hold : forall j s, 0 <= j < nitems v ->
              stored_id m' j s -> stored_id (items v) j s).
    { intros j s Hj Hs. destruct (Ht j Hj) as (k' & Hk & Hz').
      assert (Hz2 : m' (item_id j + k') = x00).
      { unfold m'. rewrite added_items_below; [exact Hz'|]. layout. lia. }
      pose proof (stored_id_short _ _ _ _ Hs (proj1 Hk) Hz2) as Hlen.
      unfold stored_id in *. rewrite <- Hs. symmetry. apply mem_read_ext.
      intros x Hx. apply added_items_below. layout. lia. }
    assert (Hnew : forall j s, 0 <= j < nitems v ->
              stored_id m' j s -> stored_id m' (nitems v) s -> False).
    { intros j s Hj Hs Hn. apply Hno. exists j. split; [exact Hj|].
      pose proof (added_items_stored_clean (items v) (nitems v) id k comment
                    Hp Hz) as Hid.
      pose proof (stored_id_unique _ _ _ _ Hn Hid) as Hc.
      pose proof (Hold j s Hj Hs) as Hs'.
      unfold stored_id in *.
      rewrite <- Hc. rewrite <- (cstr_length id), <- Hc, cstr_length.
      exact Hs'. }
    intros i j s Hi Hj Hsi Hsj. cbn [nitems items] in Hi, Hj, Hsi, Hsj.
    fold m' in Hsi, Hsj.
    destruct (Z.eq_dec i (nitems v)) as [->|Hi'],
             (Z.eq_dec j (nitems v)) as [->|Hj']; try reflexivity.
    + exfalso. apply (Hnew j s); [lia | exact Hsj | exact Hsi].
    + exfalso. apply (Hnew i s); [lia | exact Hsi | exact Hsj].
    + apply (Hu _ _ s); [lia | lia | apply Hold; [lia | exact Hsi]
                        | apply Hold; [lia | exact Hsj]].
Qed.

(** ** The theorems at concrete segments *)

(** 'b' again on the full three-record vault. *)
Lemma add_key_rejected_unmodified_witness :
  add_key three_full (Some (text "b")) (Some (text "other")) None
  = (three_full, Raise DuplicateIdentifier)
  /\ nitems (fst (add_key three_full (Some (text "b")) (Some (text "other"))
                    None))
     = nitems three_full.
Proof.
  apply (proj2 (add_key_rejected_unmodified three_full (Some (text "b"))
                  (Some (text "other")) None) (text "b") (text "other")
           eq_refl eq_refl).
  - exists 1. split; [concrete_le | vm_compute; reflexivity].
  - concrete_le.
Defined.

(** The three adds and the fourth, on the segment for three records. *)
Lemma add_keys_to_capacity_witness :
  exists v,
    add_keys three_fresh three_adds
    = (v, repeat (Return tt) (length three_adds))
    /\ nitems v = maxitems three_fresh
    /\ maxitems v = maxitems three_fresh
    /\ add_key v (Some (arg_id fourth_add)) (Some (arg_key fourth_add))
         (arg_comment fourth_add)
       = (v, Raise CapacityExceeded).
Proof.
  apply (add_keys_to_capacity three_max_size default_items_offset
           raw_segment 1 three_adds fourth_add).
  - concrete_le.
  - reflexivity.
  - reflexivity.
  - repeat constructor; concrete_le.
  - vm_compute. repeat constructor; simpl; intuition discriminate.
Defined.

(** 'b' is found at index 1 of the full three-record vault. *)
Lemma delete_key_postcondition_witness :
  exists v',
    delete_key three_full (Some (text "b")) = (v', Return tt)
    /\ nitems v' = nitems three_full - 1
    /\ maxitems v' = maxitems three_full
    /\ lock v' = lock three_full
    /\ (forall b, 0 <= b < sizeof_VaultItemData ->
          items v' (item_addr 1 + b)
          = items three_full (item_addr (nitems three_full - 1) + b))
    /\ (forall a, ~ (item_addr 1 <= a < item_addr (1 + 1)) ->
          items v' a = items three_full a).
Proof.
  apply (proj1 (delete_key_postcondition three_full (text "b")) 1).
  - concrete_le.
  - vm_compute. reflexivity.
  - intros j Hj. assert (j = 0) as -> by lia. vm_compute. discriminate.
Defined.

(** The rows of the full three-record vault. *)
Lemma list_keys_no_payload_witness :
  length (list_keys three_max_size default_items_offset 320 three_full)
  = Z.to_nat (nitems three_full)
  /\ ((320 <= 320)%nat ->
      forall o,
        In o (list_keys three_max_size default_items_offset 320 three_full) ->
        exists k t,
          0 <= k < nitems three_full /\ o = Some t
          /\ row_of_fields three_full k t)
  /\ (forall v', same_but_keys three_full v' ->
        list_keys three_max_size default_items_offset 320 v'
        = list_keys three_max_size default_items_offset 320 three_full).
Proof.
  apply (list_keys_no_payload three_max_size default_items_offset 320
           three_full).
  concrete_le.
Defined.

(** The full three-record vault, cleared. *)
Lemma delete_keys_clears_witness :
  let v' := fst (delete_keys three_max_size default_items_offset three_full) in
  nitems v' = 0
  /\ maxitems v' = maxitems three_full
  /\ items v' (item_key 2 + VARHDRSZ) = x00
  /\ lookup_key v' (Some (text "c")) = Return None.
Proof.
  destruct (delete_keys_clears three_max_size default_items_offset three_full)
    as (_ & Hn & Hm & _ & _ & Hslots & Hl).
  split; [exact Hn|]. split; [exact Hm|]. split; [|apply Hl].
  apply (Hslots ltac:(concrete_le) 2 (MAX_ID_LENGTH + MAX_COMMENT_LENGTH
                                      + VARHDRSZ)); concrete_le.
Defined.

(** Start-up with the default size. *)
Lemma pgvault_shmem_startup_contract_witness :
  maxitems fresh_vault
  = (default_max_size - default_items_offset) / sizeof_VaultItemData
  /\ nitems fresh_vault = 0
  /\ lock fresh_vault = 1
  /\ (forall a, 0 <= a < default_max_size - default_items_offset ->
        items fresh_vault a = x00)
  /\ pgvault_shmem_startup default_max_size default_items_offset
       raw_segment true 1 = raw_segment.
Proof.
  apply (pgvault_shmem_startup_contract default_max_size default_items_offset
           raw_segment 1).
  - concrete_le.
  - reflexivity.
Defined.

(** A key byte of record 1 in the copy of the full three-record vault. *)
Lemma vault_copy_strips_only_populated_witness :
  items (vault_copy three_max_size default_items_offset true three_full)
    (item_key 1 + 4)
  = x00.
Proof.
  apply (proj1 vault_copy_strips_only_populated three_max_size
           default_items_offset true three_full 1 (item_key 1 + 4)).
  - concrete_le.
  - concrete_le.
Defined.

(** The first add on the segment for three records. *)
Lemma add_key_then_lookup_clean_witness :
  exists v',
    add_key three_fresh (Some (text "a")) (Some ["001"; "002"; "003"]%byte)
      (Some (text "x"))
    = (v', Return tt)
    /\ nitems v' = nitems three_fresh + 1
    /\ lookup_key v' (Some (text "a"))
       = Return (Some (bytea ["001"; "002"; "003"]%byte)).
Proof.
  apply (add_key_then_lookup_clean three_fresh
           {| arg_id := text "a"; arg_key := ["001"; "002"; "003"]%byte;
              arg_comment := Some (text "x") |}).
  - concrete_le.
  - intros (i & Hi & _). change (0 <= i < 0) in Hi. lia.
  - concrete_le.
  - vm_compute. reflexivity.
Defined.

(** *** Segments reached by calls *)

Lemma reachable_add_keys (size off : Z) (l : list add_args) :
  forall v, reachable size off v -> reachable size off (fst (add_keys v l)).
Proof.
  induction l as [|a l IH]; intros v Hr; [exact Hr|].
  rewrite add_keys_cons. cbn [fst]. apply IH. apply reach_add_key. exact Hr.
Qed.

Lemma well_formed_ids_terminated (size off : Z) (v : VaultInfoData) :
  well_formed size off v -> ids_terminated v.
Proof.
  intros (_ & Hn & Hz & _) i Hi. exists (MAX_ID_LENGTH - 1).
  split; [layout; lia|]. apply Hz. lia.
Qed.

Lemma three_sizes :
  0 <= default_items_offset <= three_max_size /\ three_max_size < 2 ^ 31.
Proof. concrete_le. Qed.

Lemma default_sizes :
  0 <= default_items_offset <= default_max_size /\ default_max_size < 2 ^ 31.
Proof. concrete_le. Qed.

Lemma three_adds_valid : Forall valid_args three_adds.
Proof. repeat constructor; concrete_le. Qed.

Lemma three_adds_distinct : NoDup (map arg_cstr three_adds).
Proof. vm_compute. repeat constructor; simpl; intuition discriminate. Qed.

Lemma three_fresh_clean :
  clean_empty (items_bytes three_max_size default_items_offset) three_fresh.
Proof.
  apply startup_clean_empty; [exact (proj1 three_sizes) | exact (proj2 three_sizes)].
Qed.

Lemma three_full_reachable :
  reachable three_max_size default_items_offset three_full.
Proof. apply reachable_add_keys. apply reach_startup. Qed.

Lemma three_full_terminated : ids_terminated three_full.
Proof.
  apply (well_formed_ids_terminated three_max_size default_items_offset).
  apply reachable_well_formed;
    [exact (proj1 three_sizes) | exact (proj2 three_sizes)
     | exact three_full_reachable].
Qed.

Lemma three_full_unique : ids_unique three_full.
Proof.
  destruct (add_keys_lay_out three_adds three_fresh []
              (items_bytes three_max_size default_items_offset)
              (clean_empty_laid_out _ _ three_fresh_clean)
              three_adds_valid three_adds_distinct)
    as (v & E & _ & Hl); [concrete_le | concrete_le |].
  unfold three_full. rewrite E. cbn [fst].
  exact (laid_out_ids_unique _ _ _ Hl three_adds_distinct).
Qed.

Lemma three_after_delete_reachable :
  reachable three_max_size default_items_offset three_after_delete.
Proof. apply reach_delete_key. exact three_full_reachable. Qed.

(** The segment for three records after three adds and a delete. *)
Lemma reachable_count_bounds_witness :
  maxitems three_after_delete
  = (three_max_size - default_items_offset) / sizeof_VaultItemData
  /\ 0 <= nitems three_after_delete <= maxitems three_after_delete
  /\ item_addr (nitems three_after_delete)
     <= three_max_size - default_items_offset.
Proof.
  exact (reachable_count_bounds three_max_size default_items_offset
           three_after_delete (proj1 three_sizes) (proj2 three_sizes)
           three_after_delete_reachable).
Defined.

(** The record vacated by the delete, which is past [nitems]. *)
Lemma reachable_strings_terminated_witness :
  exists s c,
    mem_cstring (Z.to_nat MAX_ID_LENGTH) (items three_after_delete) (item_id 2)
    = Some s
    /\ mem_cstring (Z.to_nat MAX_COMMENT_LENGTH) (items three_after_delete)
         (item_comment 2) = Some c
    /\ stored_id (items three_after_delete) 2 s
    /\ stored_comment (items three_after_delete) 2 c
    /\ Z.of_nat (length s) < MAX_ID_LENGTH
    /\ Z.of_nat (length c) < MAX_COMMENT_LENGTH.
Proof.
  apply (reachable_strings_terminated three_max_size default_items_offset
           three_after_delete 2 (proj1 three_sizes) (proj2 three_sizes)
           three_after_delete_reachable).
  concrete_le.
Defined.

(** 'b' looked up in the full three-record vault. *)
Lemma reachable_lookup_bytea_witness :
  exists data,
    bytea ["004"; "005"]%byte = bytea data
    /\ Z.of_nat (length data) < MAX_KEY_LENGTH.
Proof.
  apply (reachable_lookup_bytea three_max_size default_items_offset
           three_full (text "b") (bytea ["004"; "005"]%byte)
           (proj1 three_sizes) (proj2 three_sizes) three_full_reachable).
  vm_compute. reflexivity.
Defined.

(** Row 1 of the full three-record vault. *)
Lemma reachable_list_keys_rows_witness :
  exists t,
    nth_error (list_keys three_max_size default_items_offset 255 three_full) 1
    = Some (Some t)
    /\ tup_key t = None
    /\ stored_id (items three_full) 1 (tup_id t)
    /\ stored_comment (items three_full) 1 (tup_comment t)
    /\ Z.of_nat (length (tup_id t)) < MAX_ID_LENGTH
    /\ Z.of_nat (length (tup_comment t)) < MAX_COMMENT_LENGTH
    /\ exists r, lookup_key three_full (Some (tup_id t)) = Return (Some r).
Proof.
  apply (reachable_list_keys_rows three_max_size default_items_offset
           three_full 255 1 (proj1 three_sizes) (proj2 three_sizes)
           three_full_reachable).
  - apply le_n.
  - concrete_le.
Defined.

(** A refused fourth add leaves 'a' as it was. *)
Lemma add_key_keeps_others_witness :
  lookup_key
    (fst (add_key three_after_delete (Some (text "d")) (Some ["000"]%byte)
            None))
    (Some (text "a"))
  = lookup_key three_after_delete (Some (text "a")).
Proof.
  apply (add_key_keeps_others three_after_delete (Some (text "d"))
           (Some ["000"]%byte) None (text "a") 0).
  - apply (well_formed_ids_terminated three_max_size default_items_offset).
    exact (reachable_well_formed _ _ _ (proj1 three_sizes) (proj2 three_sizes)
             three_after_delete_reachable).
  - vm_compute. reflexivity.
  - concrete_le.
Defined.

(** 'b' deleted from the full three-record vault, 'c' looked up. *)
Lemma delete_key_keeps_others_witness :
  lookup_key (fst (delete_key three_full (Some (text "b")))) (Some (text "c"))
  = lookup_key three_full (Some (text "c")).
Proof.
  apply (delete_key_keeps_others three_full (text "b") (text "c")).
  - exact three_full_unique.
  - exact three_full_terminated.
  - vm_compute. discriminate.
  - intros i Hi. assert (i = 2) as -> by (vm_compute in Hi; congruence).
    concrete_le.
Defined.

(** The three adds of the scenario, and the lookup of 'c'. *)
Lemma add_keys_then_lookup_all_witness :
  snd (add_keys three_fresh three_adds) = [Return tt; Return tt; Return tt]
  /\ nitems three_full = 3
  /\ lookup_key three_full (Some (text "c")) = Return (Some (bytea ["009"]%byte)).
Proof.
  destruct (add_keys_then_lookup_all
              (items_bytes three_max_size default_items_offset)
              three_fresh three_adds three_fresh_clean three_adds_valid
              three_adds_distinct ltac:(concrete_le))
    as (Hr & Hn & _ & Hl).
  split; [exact Hr|]. split; [exact Hn|].
  apply (Hl {| arg_id := text "c"; arg_key := ["009"]%byte;
               arg_comment := Some (text "z") |}).
  simpl. tauto.
Defined.

(** The rows of the full three-record vault. *)
Lemma add_keys_then_list_keys_witness :
  list_keys three_max_size default_items_offset 255 three_full
  = [ Some {| tup_id := text "a"; tup_key := None; tup_comment := text "x" |};
      Some {| tup_id := text "b"; tup_key := None; tup_comment := [] |};
      Some {| tup_id := text "c"; tup_key := None; tup_comment := text "z" |} ].
Proof.
  apply (add_keys_then_list_keys three_max_size default_items_offset
           three_fresh three_adds 255 three_fresh_clean three_adds_valid
           three_adds_distinct).
  - concrete_le.
  - concrete_le.
  - apply le_n.
Defined.

(** The full three-record vault, cleared. *)
Lemma delete_keys_clean_empty_witness :
  clean_empty (items_bytes three_max_size default_items_offset)
    (fst (delete_keys three_max_size default_items_offset three_full))
  /\ maxitems (fst (delete_keys three_max_size default_items_offset three_full))
     = (three_max_size - default_items_offset) / sizeof_VaultItemData
  /\ (forall a, items_bytes three_max_size default_items_offset <= a ->
        items (fst (delete_keys three_max_size default_items_offset
                      three_full)) a
        = items three_full a).
Proof.
  exact (delete_keys_clean_empty three_max_size default_items_offset
           three_full (proj1 three_sizes) (proj2 three_sizes)
           three_full_reachable).
Defined.

(** A key of 1023 bytes: its last byte lands on [id[2]] of record 1. *)
Lemma add_key_overrun_witness :
  snd (add_key fresh_vault (Some (text "k")) (Some (repeat "A"%byte 1023)) None)
  = Return tt
  /\ items (fst (add_key fresh_vault (Some (text "k"))
                   (Some (repeat "A"%byte 1023)) None))
       (item_id (nitems fresh_vault + 1) + (1022 - (MAX_KEY_LENGTH - VARHDRSZ)))
     = nth (Z.to_nat 1022) (repeat "A"%byte 1023) x00.
Proof.
  apply (add_key_overrun fresh_vault (text "k") (repeat "A"%byte 1023) None
           1022).
  - concrete_le.
  - intros (i & Hi & _). change (0 <= i < 0) in Hi. lia.
  - concrete_le.
  - concrete_le.
Defined.

(** 'a' added to the empty segment for three records, then deleted. *)
Lemma add_then_delete_restores_witness :
  let a := {| arg_id := text "a"; arg_key := ["001"; "002"; "003"]%byte;
              arg_comment := Some (text "x") |} in
  let r1 := add_key three_fresh (Some (arg_id a)) (Some (arg_key a))
              (arg_comment a) in
  let r2 := delete_key (fst r1) (Some (arg_id a)) in
  snd r1 = Return tt
  /\ snd r2 = Return tt
  /\ nitems (fst r2) = nitems three_fresh
  /\ maxitems (fst r2) = maxitems three_fresh
  /\ (forall x, ~ (item_addr (nitems three_fresh) <= x
                   < item_addr (nitems three_fresh + 1)) ->
        items (fst r2) x = items three_fresh x)
  /\ lookup_key (fst r2) (Some (arg_id a)) = Return None.
Proof.
  apply (add_then_delete_restores three_fresh
           {| arg_id := text "a"; arg_key := ["001"; "002"; "003"]%byte;
              arg_comment := Some (text "x") |}).
  - concrete_le.
  - intros (i & Hi & _). change (0 <= i < 0) in Hi. lia.
  - concrete_le.
  - vm_compute. reflexivity.
Defined.

(** The boot value of the parameter, with the header of 12 bytes. *)
Lemma guc_capacity_witness :
  maxitems fresh_vault
  = (default_max_size - default_items_offset) / sizeof_VaultItemData
  /\ 780 <= maxitems fresh_vault
  /\ maxitems fresh_vault * sizeof_VaultItemData
     <= default_max_size - default_items_offset
  /\ nitems fresh_vault = 0.
Proof.
  apply (guc_capacity default_max_size default_items_offset raw_segment 1).
  - concrete_le.
  - concrete_le.
Defined.

(** A refused fourth add on the full three-record vault writes nothing at
    offset 0; an accepted add of record 1 leaves record 0. *)
Lemma add_key_write_frame_witness :
  items (fst (add_key one_record (Some (text "b")) (Some ["004"; "005"]%byte)
                None)) 0
  = items one_record 0.
Proof.
  apply (proj1 (add_key_write_frame one_record (Some (text "b"))
                  (Some ["004"; "005"]%byte) None 0)).
  concrete_le.
Defined.

(** 'abc' added where 'abcdef' was deleted. *)
Lemma add_key_dirty_lookup_misses_witness :
  snd (add_key dirty_vault (Some (text "abc")) (Some (text "2")) None)
  = Return tt
  /\ nitems (fst (add_key dirty_vault (Some (text "abc")) (Some (text "2"))
                    None))
     = nitems dirty_vault + 1
  /\ lookup_key
       (fst (add_key dirty_vault (Some (text "abc")) (Some (text "2")) None))
       (Some (text "abc"))
     = Return None.
Proof.
  apply (add_key_dirty_lookup_misses dirty_vault (text "abc") (text "2") None).
  - concrete_le.
  - intros (i & Hi & _). change (0 <= i < 0) in Hi. lia.
  - concrete_le.
  - vm_compute. discriminate.
Defined.

(** 'a' deleted from the full three-record vault: the row of 'c' comes
    first. *)
Lemma delete_key_list_keys_witness :
  nth_error
    (list_keys three_max_size default_items_offset 255
       (fst (delete_key three_full (Some (text "a"))))) 0
  = nth_error (list_keys three_max_size default_items_offset 255 three_full) 2.
Proof.
  destruct (delete_key_list_keys three_max_size default_items_offset 255
              three_full (text "a") 0 (proj1 three_sizes) (proj2 three_sizes)
              three_full_reachable)
    as [_ H]; [vm_compute; reflexivity|].
  exact (H 0 ltac:(concrete_le)).
Defined.

Lemma one_record_reachable :
  reachable default_max_size default_items_offset one_record.
Proof. apply reach_add_key. apply reach_startup. Qed.

(** 'b' added, with no comment, to the vault that holds 'a'. *)
Lemma add_key_list_keys_witness :
  exists i0 t tail,
    Some (text "b") = Some i0
    /\ list_keys default_max_size default_items_offset 255
         (fst (add_key one_record (Some (text "b")) (Some ["004"; "005"]%byte)
                 None))
       = list_keys default_max_size default_items_offset 255 one_record
         ++ [Some t]
    /\ tup_id t = cstr i0 ++ tail
    /\ tup_key t = None
    /\ (@None (list byte) = None ->
        mem_cstring 255 (items one_record) (item_comment (nitems one_record))
        = Some (tup_comment t)).
Proof.
  apply (proj1 (add_key_list_keys default_max_size default_items_offset 255
                  one_record (Some (text "b")) (Some ["004"; "005"]%byte) None
                  (proj1 default_sizes) (proj2 default_sizes)
                  one_record_reachable (le_n 255))).
  vm_compute. reflexivity.
Defined.

Lemma three_after_delete_terminated : ids_terminated three_after_delete.
Proof.
  apply (well_formed_ids_terminated three_max_size default_items_offset).
  exact (reachable_well_formed _ _ _ (proj1 three_sizes) (proj2 three_sizes)
           three_after_delete_reachable).
Qed.

(** 'a' deleted from the full three-record vault, where the record of 'c'
    moves into its place. *)
Lemma delete_key_then_lookup_witness :
  lookup_key (fst (delete_key three_full (Some (text "a")))) (Some (text "a"))
  = Return None.
Proof.
  apply (delete_key_then_lookup three_full (text "a")).
  - exact three_full_unique.
  - concrete_le.
Defined.

(** 'a' deleted from the full three-record vault, the vault cleared, and
    'd' added into the record the delete of 'b' left. *)
Lemma ids_unique_preserved_witness :
  ids_unique (fst (delete_key three_full (Some (text "a"))))
  /\ ids_unique
       (fst (delete_keys three_max_size default_items_offset three_full))
  /\ snd (add_key three_after_delete (Some (text "d")) (Some ["000"]%byte)
            None)
     = Return tt
  /\ ids_unique
       (fst (add_key three_after_delete (Some (text "d"))
               (Some ["000"]%byte) None)).
Proof.
  destruct (ids_unique_preserved three_max_size default_items_offset
              three_full three_full_unique three_full_terminated)
    as (Hd & Hk & _).
  destruct (ids_unique_preserved three_max_size default_items_offset
              three_after_delete (Hd (Some (text "b")))
              three_after_delete_terminated)
    as (_ & _ & Ha).
  split; [exact (Hd (Some (text "a")))|]. split; [exact Hk|].
  split; [vm_compute; reflexivity|].
  apply Ha. vm_compute. reflexivity.
Defined.
